(** * vitaGL texture-memory allocator (source/allocator.c)

    A shallow embedding of the block allocator behind [texmem_alloc] and
    [texmem_free], and the properties of it that the specification states.

    Machine model: the target is the PS Vita (32-bit ARM), so [uintptr_t]
    and [uint32_t] are both 32-bit unsigned integers.  They are represented
    as [Z] and every arithmetic operation of the source is followed by an
    explicit reduction modulo 2^32 ([wrap]).  A pointer to a descriptor
    ([tm_block_t *]) always points into the static array [tm_blockpool];
    it is represented by the index of the slot, [None] being [NULL]. *)

From Stdlib Require Import ZArith Lia.
From stdpp Require Import base list sets.

Local Open Scope Z_scope.
#[local] Set Warnings "-clear-no-such-hyp".

(** ** Constants of the source *)

Definition TM_MAX_BLOCKS : nat := 2048.
Definition TM_ALIGNMENT : Z := 8.
Definition TM_TYPE_VRAM : Z := 1.
Definition TM_TYPE_RAM : Z := 2.

(** [SceKernelMemBlockType] value selecting video memory (vitasdk). *)
Definition SCE_KERNEL_MEMBLOCK_TYPE_USER_CDRAM_RW : Z := 0x09408060.

(** ** 32-bit unsigned arithmetic *)

Definition wrap (x : Z) : Z := x mod 2 ^ 32.

(** Modelled from the spec: the [ALIGN] macro of [gpu_utils.h], which is not
    among the sources.  The allocation engine uses it to "round the
    candidate's base up to [alignment]"; the result is a 32-bit value. *)
Definition ALIGN (x a : Z) : Z := wrap ((x + (a - 1)) / a * a).

(** ** Data model *)

(** [tm_block_t].  [next] is the forward link. *)
Record tm_block := mk_block {
  next : option nat;
  type : Z;
  base : Z;
  offset : Z;
  size : Z
}.

Global Instance tm_block_inhabited : Inhabited tm_block :=
  populate (mk_block None 0 0 0 0).

(** The file-scope variables of allocator.c. *)
Record heap := mk_heap {
  tm_main : Z;
  tm_main_uid : Z;
  tm_main_size : Z;
  tm_main_type : Z;
  tm_sub_type : Z;
  tm_used : Z;
  tm_blockpool : list tm_block;
  tm_blocknum : Z;
  tm_alloclist : option nat;
  tm_freelist : option nat
}.

(** Field assignments on a descriptor. *)
Definition set_next (n : option nat) (b : tm_block) : tm_block :=
  mk_block n (type b) (base b) (offset b) (size b).
Definition set_type (t : Z) (b : tm_block) : tm_block :=
  mk_block (next b) t (base b) (offset b) (size b).
Definition set_base (x : Z) (b : tm_block) : tm_block :=
  mk_block (next b) (type b) x (offset b) (size b).
Definition set_offset (x : Z) (b : tm_block) : tm_block :=
  mk_block (next b) (type b) (base b) x (size b).
Definition set_size (x : Z) (b : tm_block) : tm_block :=
  mk_block (next b) (type b) (base b) (offset b) x.

(** Assignments to the file-scope variables. *)
Definition set_pool (p : list tm_block) (s : heap) : heap :=
  mk_heap (tm_main s) (tm_main_uid s) (tm_main_size s) (tm_main_type s)
    (tm_sub_type s) (tm_used s) p (tm_blocknum s) (tm_alloclist s)
    (tm_freelist s).
Definition set_blocknum (n : Z) (s : heap) : heap :=
  mk_heap (tm_main s) (tm_main_uid s) (tm_main_size s) (tm_main_type s)
    (tm_sub_type s) (tm_used s) (tm_blockpool s) n (tm_alloclist s)
    (tm_freelist s).
Definition set_used (u : Z) (s : heap) : heap :=
  mk_heap (tm_main s) (tm_main_uid s) (tm_main_size s) (tm_main_type s)
    (tm_sub_type s) u (tm_blockpool s) (tm_blocknum s) (tm_alloclist s)
    (tm_freelist s).
Definition set_alloclist (p : option nat) (s : heap) : heap :=
  mk_heap (tm_main s) (tm_main_uid s) (tm_main_size s) (tm_main_type s)
    (tm_sub_type s) (tm_used s) (tm_blockpool s) (tm_blocknum s) p
    (tm_freelist s).
Definition set_freelist (p : option nat) (s : heap) : heap :=
  mk_heap (tm_main s) (tm_main_uid s) (tm_main_size s) (tm_main_type s)
    (tm_sub_type s) (tm_used s) (tm_blockpool s) (tm_blocknum s)
    (tm_alloclist s) p.

(** [blk s i] reads the descriptor [tm_blockpool[i]]; [upd i f s] applies
    the field assignment [f] to it. *)
Definition blk (s : heap) (i : nat) : tm_block := tm_blockpool s !!! i.
Definition upd (i : nat) (f : tm_block → tm_block) (s : heap) : heap :=
  set_pool (alter f i (tm_blockpool s)) s.

(** The idiom [if (prev) prev->next = x; else tm_freelist = x;] by which
    the loops over the free list write the link that leads to the current
    block, and the same for the allocated list. *)
Definition link_free (prev x : option nat) (s : heap) : heap :=
  match prev with
  | Some p => upd p (set_next x) s
  | None => set_freelist x s
  end.
Definition link_alloc (prev x : option nat) (s : heap) : heap :=
  match prev with
  | Some p => upd p (set_next x) s
  | None => set_alloclist x s
  end.

(** ** Block pool *)

(** [heap_blk_new]: the first slot whose type is -1 is switched to type 0
    and returned; [NULL] when every slot is taken. *)
Definition heap_blk_new (s : heap) : option nat * heap :=
  match list_find (λ b, type b = -1) (tm_blockpool s) with
  | Some (i, _) =>
      (Some i, set_blocknum (tm_blocknum s + 1) (upd i (set_type 0) s))
  | None => (None, s)
  end.

Definition heap_blk_release (i : nat) (s : heap) : heap :=
  let s := upd i (set_type (-1)) s in
  set_blocknum (tm_blocknum s - 1) s.

(** ** Free-list manager *)

Definition heap_blk_mergeable (a b : tm_block) : bool :=
  (type a =? type b)
  && (wrap (base a + size a) =? base b)
  && (wrap (offset a + size a) =? offset b).

(** The loop of [heap_blk_insert_free]: advance while [curr] is not [NULL]
    and [curr->base < bbase].  The loop does not write; [fuel] bounds the
    number of iterations, and [None] is returned when it is used up. *)
Fixpoint insert_free_scan (fuel : nat) (s : heap) (bbase : Z)
    (prev curr : option nat) : option (option nat * option nat) :=
  match curr with
  | None => Some (prev, curr)
  | Some c =>
      if base (blk s c) <? bbase then
        match fuel with
        | O => None
        | S fuel' => insert_free_scan fuel' s bbase curr (next (blk s c))
        end
      else Some (prev, curr)
  end.

(** The three steps of [heap_blk_insert_free] after the loop.  First the
    block is linked in between [prev] and [curr]. *)
Definition insert_free_link (block : nat) (prev curr : option nat)
    (s : heap) : heap :=
  let s := link_free prev (Some block) s in
  upd block (set_next curr) s.

(** Check merge with current: [curr] is absorbed into [block]. *)
Definition merge_with_curr (block : nat) (curr : option nat) (s : heap)
    : heap :=
  match curr with
  | Some c =>
      if heap_blk_mergeable (blk s block) (blk s c) then
        let s := upd block
                   (set_size (wrap (size (blk s block) + size (blk s c)))) s in
        let s := upd block (set_next (next (blk s c))) s in
        heap_blk_release c s
      else s
  | None => s
  end.

(** Check merge with prev: [block] is absorbed into [prev]. *)
Definition merge_with_prev (block : nat) (prev : option nat) (s : heap)
    : heap :=
  match prev with
  | Some p =>
      if heap_blk_mergeable (blk s p) (blk s block) then
        let s := upd p
                   (set_size (wrap (size (blk s p) + size (blk s block)))) s in
        let s := upd p (set_next (next (blk s block))) s in
        heap_blk_release block s
      else s
  | None => s
  end.

(** A walk over a list threaded through a pool of [n] slots either ends
    within [n] steps or has entered a cycle, so the loops are run with
    [length tm_blockpool] as fuel and [None] stands for a loop that never
    ends. *)
Definition heap_blk_insert_free (block : nat) (s : heap) : option heap :=
  match insert_free_scan (length (tm_blockpool s)) s (base (blk s block))
          None (tm_freelist s) with
  | Some (prev, curr) =>
      let s := insert_free_link block prev curr s in
      let s := merge_with_curr block curr s in
      Some (merge_with_prev block prev s)
  | None => None
  end.

(** ** Allocation engine *)

(** Lines 120-141 of [heap_blk_alloc]: the leading part of [curr] that is
    skipped for alignment becomes the free block [k], linked in before
    [curr]; [curr] is shifted and shrunk by [skip]. *)
Definition alloc_carve_skip (prev : option nat) (c k : nat) (skip : Z)
    (s : heap) : heap :=
  (* link in *)
  let s := link_free prev (Some k) s in
  let s := upd k (set_next (Some c)) s in
  (* set sizes *)
  let s := upd k (set_type (type (blk s c))) s in
  let s := upd k (set_base (base (blk s c))) s in
  let s := upd k (set_offset (offset (blk s c))) s in
  let s := upd k (set_size skip) s in
  let s := upd c (set_base (wrap (base (blk s c) + skip))) s in
  let s := upd c (set_offset (wrap (offset (blk s c) + skip))) s in
  upd c (set_size (wrap (size (blk s c) - skip))) s.

(** Lines 143-155: what is left of [curr] behind the requested [sz] bytes
    becomes the free block [u], linked in after [curr]. *)
Definition alloc_carve_unused (c u : nat) (sz : Z) (s : heap) : heap :=
  (* link in *)
  let s := upd u (set_next (next (blk s c))) s in
  let s := upd c (set_next (Some u)) s in
  (* set sizes *)
  let s := upd u (set_type (type (blk s c))) s in
  let s := upd u (set_base (wrap (base (blk s c) + sz))) s in
  let s := upd u (set_offset (wrap (offset (blk s c) + sz))) s in
  let s := upd u (set_size (wrap (size (blk s c) - sz))) s in
  upd c (set_size sz) s.

(** Lines 157-167: [curr] leaves the free list and is pushed onto the
    allocated list; the usage counter grows by its size. *)
Definition alloc_take (prev : option nat) (c : nat) (s : heap) : heap :=
  (* unlink from free list *)
  let s := link_free prev (next (blk s c)) s in
  (* push onto alloc list *)
  let s := upd c (set_next (tm_alloclist s)) s in
  let s := set_alloclist (Some c) s in
  set_used (wrap (tm_used s + size (blk s c))) s.

(** Lines 120-167, run once the descriptors needed are at hand: carve the
    skipped and the unused memory off [curr], then move it to the allocated
    list. *)
Definition alloc_link (sz : Z) (prev : option nat) (c : nat) (skip : Z)
    (skipBlock unusedBlock : option nat) (s : heap) : heap :=
  (* add block for skipped memory *)
  let r := if skip =? 0 then (prev, s) else
           match skipBlock with
           | Some k => (Some k, alloc_carve_skip prev c k skip s)
           | None => (prev, s)  (* not reached: skipBlock was checked *)
           end in
  let prev := r.1 in
  let s := r.2 in
  (* add block for unused memory *)
  let s := if sz =? size (blk s c) then s else
           match unusedBlock with
           | Some u => alloc_carve_unused c u sz s
           | None => s  (* not reached for 32-bit values: the test at
                           line 110 acquired [unusedBlock] in this case *)
           end in
  alloc_take prev c s.

(** The body of the [if] at line 100, entered for the block [c] that passed
    the test, with the predecessor [prev] and the padding [skip] computed by
    the loop.  Both descriptors are acquired before anything is linked. *)
Definition heap_blk_alloc_at (sz : Z) (prev : option nat) (c : nat)
    (skip : Z) (s : heap) : option nat * heap :=
  (* allocate any blocks we need now to avoid complicated rollback *)
  let r1 := if skip =? 0 then (None, s) else heap_blk_new s in
  let skipBlock := r1.1 in
  let s := r1.2 in
  if negb (skip =? 0) && bool_decide (skipBlock = None) then (None, s) else
  let need_unused := negb (wrap (skip + sz) =? size (blk s c)) in
  let r2 := if need_unused then heap_blk_new s else (None, s) in
  let unusedBlock := r2.1 in
  let s := r2.2 in
  if need_unused && bool_decide (unusedBlock = None) then
    (None, match skipBlock with
           | Some k => heap_blk_release k s
           | None => s
           end)
  else
  (Some c, alloc_link sz prev c skip skipBlock unusedBlock s).

(** The loop of [heap_blk_alloc]: the first block of the free list whose
    type is [ty] and that holds [skip + sz] bytes, the sum being the
    [uint32_t] sum of the source, is handed to [heap_blk_alloc_at]. *)
Fixpoint heap_blk_alloc_scan (fuel : nat) (ty sz alignment : Z)
    (prev curr : option nat) (s : heap) : option (option nat * heap) :=
  match curr with
  | None => Some (None, s)
  | Some c =>
      (* check this block can handle alignment and size *)
      let skip := wrap (ALIGN (base (blk s c)) alignment - base (blk s c)) in
      if (type (blk s c) =? ty) && (wrap (skip + sz) <=? size (blk s c)) then
        Some (heap_blk_alloc_at sz prev c skip s)
      else
        match fuel with
        | O => None
        | S fuel' =>
            heap_blk_alloc_scan fuel' ty sz alignment curr (next (blk s c)) s
        end
  end.

Definition heap_blk_alloc (ty sz alignment : Z) (s : heap)
    : option (option nat * heap) :=
  heap_blk_alloc_scan (length (tm_blockpool s)) ty sz alignment
    None (tm_freelist s) s.

(** The loop of [heap_blk_free]: advance while [curr] is not [NULL] and
    [curr->base != addr]. *)
Fixpoint free_scan (fuel : nat) (s : heap) (addr : Z)
    (prev curr : option nat) : option (option nat * option nat) :=
  match curr with
  | None => Some (prev, curr)
  | Some c =>
      if base (blk s c) =? addr then Some (prev, curr)
      else
        match fuel with
        | O => None
        | S fuel' => free_scan fuel' s addr curr (next (blk s c))
        end
  end.

Definition heap_blk_free (addr : Z) (s : heap) : option heap :=
  match free_scan (length (tm_blockpool s)) s addr None (tm_alloclist s) with
  | None => None
  | Some (_, None) => Some s  (* early out if not found *)
  | Some (prev, Some c) =>
      (* unlink from allocated list *)
      let s := link_alloc prev (next (blk s c)) s in
      let s := upd c (set_next None) s in
      let s := set_used (wrap (tm_used s - size (blk s c))) s in
      (* add as free block *)
      heap_blk_insert_free c s
  end.

Definition heap_init (s : heap) : heap :=
  let s := set_alloclist None s in
  let s := set_freelist None s in
  let s := set_used 0 s in
  foldl (λ s i, upd i (set_type (-1)) s) s (seq 0 TM_MAX_BLOCKS).

Definition heap_destroy (s : heap) : heap := set_used 0 s.

(** [heap_extend] dereferences the result of [heap_blk_new] unchecked: with
    no slot left the behaviour is undefined, modelled by [None]. *)
Definition heap_extend (ty : Z) (bs : Z) (sz : Z) (s : heap) : option heap :=
  match heap_blk_new s with
  | (Some b, s) =>
      let s := upd b (set_next None) s in
      let s := upd b (set_type ty) s in
      let s := upd b (set_base bs) s in
      let s := upd b (set_offset 0) s in
      let s := upd b (set_size sz) s in
      heap_blk_insert_free b s
  | (None, _) => None
  end.

(** [heap_alloc] returns the block's base as the address, 0 being [NULL]. *)
Definition heap_alloc (ty sz alignment : Z) (s : heap) : option (Z * heap) :=
  match heap_blk_alloc ty sz alignment s with
  | None => None
  | Some (None, s) => Some (0, s)
  | Some (Some b, s) => Some (base (blk s b), s)
  end.

Definition heap_free (addr : Z) (s : heap) : option heap :=
  heap_blk_free addr s.

(** ** Region manager: the public interface *)

(** How a call of [texmem_init] ends.  The function is declared to return
    [uint32_t] but its body has no [return] statement: [ret] is the value
    handed to the caller, [None] when there is none. *)
Inductive init_outcome :=
  | InitAbort                                   (* [assert] failed *)
  | InitUndefined                               (* undefined behaviour *)
  | InitReturn (ret : option Z) (s : heap).

Definition set_region (m uid : Z) (s : heap) : heap :=
  mk_heap m uid (tm_main_size s) (tm_main_type s) (tm_sub_type s)
    (tm_used s) (tm_blockpool s) (tm_blocknum s) (tm_alloclist s)
    (tm_freelist s).
Definition set_types (msize mtype stype : Z) (s : heap) : heap :=
  mk_heap (tm_main s) (tm_main_uid s) msize mtype stype
    (tm_used s) (tm_blockpool s) (tm_blocknum s) (tm_alloclist s)
    (tm_freelist s).

(** [mapped] is what the external [gpu_alloc_map] delivers: the base
    address of the mapping (0 when the reservation fails) and its uid. *)
Definition texmem_init (maintype mainsize : Z) (mapped : Z * Z) (s : heap)
    : init_outcome :=
  let s := set_region mapped.1 mapped.2 s in
  if tm_main s =? 0 then InitAbort else
  let cdram := maintype =? SCE_KERNEL_MEMBLOCK_TYPE_USER_CDRAM_RW in
  let s := set_types mainsize
             (if cdram then TM_TYPE_VRAM else TM_TYPE_RAM)
             (if cdram then TM_TYPE_RAM else TM_TYPE_VRAM) s in
  let s := heap_init s in
  match heap_extend (tm_main_type s) (tm_main s) (tm_main_size s) s with
  | Some s => InitReturn None s
  | None => InitUndefined
  end.

Definition texmem_destroy (s : heap) : heap :=
  let s := heap_destroy s in
  let s := set_region 0 0 s in
  set_types 0 0 (tm_sub_type s) s.

Definition texmem_alloc (sz : Z) (s : heap) : option (Z * heap) :=
  if sz =? 0 then Some (0, s) else
  let sz := if sz <? TM_ALIGNMENT then TM_ALIGNMENT else sz in
  heap_alloc (tm_main_type s) sz TM_ALIGNMENT s.

Definition texmem_free (ptr : Z) (s : heap) : option heap :=
  if ptr =? 0 then Some s else heap_free ptr s.

Definition texmem_memused (s : heap) : Z := tm_used s.

(** The file-scope variables when the program starts: all zero. *)
Definition tm_static : heap :=
  mk_heap 0 0 0 0 0 0 (replicate TM_MAX_BLOCKS (mk_block None 0 0 0 0)) 0
    None None.


(** ** Observing the lists *)

(** The descriptors met when following [next] from [p], at most [fuel] of
    them. *)
Fixpoint walk (fuel : nat) (s : heap) (p : option nat) : list nat :=
  match p, fuel with
  | Some i, S fuel' => i :: walk fuel' s (next (blk s i))
  | _, _ => []
  end.

Definition free_blocks (s : heap) : list nat :=
  walk (length (tm_blockpool s)) s (tm_freelist s).
Definition alloc_blocks (s : heap) : list nat :=
  walk (length (tm_blockpool s)) s (tm_alloclist s).

(** Number of slots [heap_blk_new] can still hand out. *)
Definition free_slots (s : heap) : nat :=
  length (filter (λ b, type b = -1) (tm_blockpool s)).

(** The padding and the test computed at lines 99-100 for a candidate. *)
Definition alloc_skip (alignment : Z) (b : tm_block) : Z :=
  wrap (ALIGN (base b) alignment - base b).
Definition alloc_fits (ty sz alignment : Z) (b : tm_block) : bool :=
  (type b =? ty) && (wrap (alloc_skip alignment b + sz) <=? size b).

(** Descriptors the split of candidate [b] takes from the pool. *)
Definition slots_needed (sz skip : Z) (b : tm_block) : nat :=
  ((if (skip =? 0)%Z then 0 else 1)
   + (if (wrap (skip + sz) =? size b)%Z then 0 else 1))%nat.

(** ** Reachable states *)

Definition u32 (x : Z) : Prop := 0 ≤ x < 2 ^ 32.

(** States reached from [texmem_init] by calls of [texmem_alloc] and
    [texmem_free].  Arguments are values of the C types: the mapping is at a
    32-bit address, sizes are [uint32_t]; the pool is the array of
    [TM_MAX_BLOCKS] descriptors. *)
Inductive reachable : heap → Prop :=
  | reach_init s0 maintype mainsize m uid ret s :
      length (tm_blockpool s0) = TM_MAX_BLOCKS →
      u32 m → u32 mainsize →
      texmem_init maintype mainsize (m, uid) s0 = InitReturn ret s →
      reachable s
  | reach_alloc s sz addr s' :
      reachable s → u32 sz →
      texmem_alloc sz s = Some (addr, s') →
      reachable s'
  | reach_free s ptr s' :
      reachable s →
      texmem_free ptr s = Some s' →
      reachable s'.

(** A sequence of calls, for running concrete scenarios. *)
Inductive call := Alloc (sz : Z) | Free (ptr : Z).

Definition do_call (c : call) (s : heap) : option heap :=
  match c with
  | Alloc sz => snd <$> texmem_alloc sz s
  | Free ptr => texmem_free ptr s
  end.

Fixpoint run (cs : list call) (s : heap) : option heap :=
  match cs with
  | [] => Some s
  | c :: cs => match do_call c s with Some s' => run cs s' | None => None end
  end.

Definition call_ok (c : call) : bool :=
  match c with
  | Alloc sz => (0 <=? sz) && (sz <? 2 ^ 32)
  | Free _ => true
  end.

(** ** What the specification speaks about *)

(** Sum of the size fields on the allocated list. *)
Definition alloc_sizes_sum (s : heap) : Z :=
  foldr Z.add 0 ((λ i, size (blk s i)) <$> alloc_blocks s).

(** Base addresses along the free list. *)
Definition free_bases (s : heap) : list Z :=
  (λ i, base (blk s i)) <$> free_blocks s.

(** Each element is below the next one. *)
Fixpoint strictly_ascending (l : list Z) : Prop :=
  match l with
  | x :: (y :: _) as r => x < y ∧ strictly_ascending r
  | _ => True
  end.

(** The ranges [base, base+size) of two blocks do not overlap. *)
Definition blocks_disjoint (a b : tm_block) : Prop :=
  base a + size a ≤ base b ∨ base b + size b ≤ base a.

(** All blocks on the two lists cover pairwise disjoint ranges. *)
Definition all_disjoint (s : heap) : Prop :=
  ∀ i j, i ∈ free_blocks s ++ alloc_blocks s →
         j ∈ free_blocks s ++ alloc_blocks s →
         i ≠ j → blocks_disjoint (blk s i) (blk s j).

(** For a request of [sz] bytes in state [s]: the usage counter grows by
    [sz] rounded up to a multiple of the granularity. *)
Definition used_grows_by_rounded_size (s : heap) (sz : Z) : Prop :=
  ∀ addr s', texmem_alloc sz s = Some (addr, s') → addr ≠ 0 →
             tm_used s' = tm_used s + ALIGN sz TM_ALIGNMENT.

(** ** Scenarios *)

(** The state [texmem_init] leaves when the program starts with it and the
    mapping lies at [m]. *)
Definition init_state (maintype mainsize m uid : Z) : heap :=
  match texmem_init maintype mainsize (m, uid) tm_static with
  | InitReturn _ s => s
  | _ => tm_static
  end.

Definition run_from (s : heap) (cs : list call) : heap :=
  default s (run cs s).

(** A region of 1024 bytes of video memory mapped at address 4096. *)
Definition region_1k : heap :=
  init_state SCE_KERNEL_MEMBLOCK_TYPE_USER_CDRAM_RW 1024 4096 1.

(** One allocation of 100 bytes leaves the free block at the unaligned
    address 4196; a request for 2^32 - 4 bytes then passes the test of
    line 100, because 4 + (2^32 - 4) is 0 in [uint32_t]. *)
Definition after_alloc_100 : heap := run_from region_1k [Alloc 100].
Definition after_overflow : heap :=
  run_from region_1k [Alloc 100; Alloc 4294967292].
Definition after_overflow_freed : heap :=
  run_from region_1k [Alloc 100; Alloc 4294967292; Free 4200; Free 4096].

(** A state with a single descriptor left in the pool: the free list is
    the one block in slot 0, 100 bytes at the unaligned address 4097, slot
    2047 is unused and every other slot is taken. *)
Definition one_slot_left : heap :=
  mk_heap 4096 1 32768 TM_TYPE_VRAM TM_TYPE_RAM 0
    (mk_block None TM_TYPE_VRAM 4097 1 100
     :: replicate 2046 (mk_block None TM_TYPE_VRAM 0 0 0)
     ++ [mk_block None (-1) 0 0 0])
    2047 None (Some 0%nat).

(** ** Well-formed heaps *)

(** [chain s p l q]: following [next] from [p] visits exactly the slots [l],
    all inside the pool, and ends at [q]. *)
Fixpoint chain (s : heap) (p : option nat) (l : list nat) (q : option nat)
    : Prop :=
  match l with
  | [] => p = q
  | x :: l' =>
      p = Some x ∧ (x < length (tm_blockpool s))%nat
      ∧ chain s (next (blk s x)) l' q
  end.

(** Where a segment over [l] that ends at [q] starts. *)
Definition entry (l : list nat) (q : option nat) : option nat :=
  match l with [] => q | x :: _ => Some x end.

(** The descriptor a loop has in [prev] after walking over [l], starting
    with [prev0]. *)
Definition last_or (prev0 : option nat) (l : list nat) : option nat :=
  match last l with Some x => Some x | None => prev0 end.

(** The free list is [fl] and the allocated list is [al]: both end in
    [NULL] and no descriptor is on a list twice or on both. *)
Record lists (s : heap) (fl al : list nat) : Prop := mk_lists {
  ls_free : chain s (tm_freelist s) fl None;
  ls_alloc : chain s (tm_alloclist s) al None;
  ls_nodup : NoDup (fl ++ al)
}.

(** What a descriptor holds apart from its link. *)
Definition payload (b : tm_block) : tm_block := set_next None b.

(** The shape all reachable heaps have: the two lists are well formed, the
    slots on them are exactly the slots in use, and the fields of the listed
    descriptors are 32-bit values. *)
Record shape (s : heap) (fl al : list nat) : Prop := mk_shape {
  sh_lists : lists s fl al;
  sh_used : ∀ i, (i < length (tm_blockpool s))%nat →
              (type (blk s i) ≠ -1 ↔ i ∈ fl ++ al);
  sh_range : ∀ i, i ∈ fl ++ al →
               u32 (base (blk s i)) ∧ u32 (offset (blk s i))
               ∧ u32 (size (blk s i))
}.

Definition heap_wf (s : heap) : Prop := ∃ fl al, shape s fl al.

(** The shape in the middle of [heap_blk_alloc]: the slots [R] have been
    acquired with [heap_blk_new] but are not linked into a list yet. *)
Record shape_res (s : heap) (fl al R : list nat) : Prop := mk_shape_res {
  sr_lists : lists s fl al;
  sr_nodup : NoDup R;
  sr_fresh : ∀ k, k ∈ R →
               (k < length (tm_blockpool s))%nat ∧ k ∉ fl ++ al;
  sr_used : ∀ i, (i < length (tm_blockpool s))%nat →
              (type (blk s i) ≠ -1 ↔ i ∈ (fl ++ al) ++ R);
  sr_range : ∀ i, i ∈ fl ++ al →
               u32 (base (blk s i)) ∧ u32 (offset (blk s i))
               ∧ u32 (size (blk s i))
}.

(** The two carving steps of [alloc_link], each run only when its
    descriptor ([ks], [us]: at most one slot) was acquired. *)
Definition skip_stage (prev : option nat) (c : nat) (ks : list nat)
    (skip : Z) (s : heap) : heap :=
  match ks with
  | k :: _ => alloc_carve_skip prev c k skip s
  | [] => s
  end.
Definition unused_stage (c : nat) (us : list nat) (sz : Z) (s : heap)
    : heap :=
  match us with
  | u :: _ => alloc_carve_unused c u sz s
  | [] => s
  end.

(** The merge both checks of [heap_blk_insert_free] perform: block [x],
    which follows [y] in the free list, is absorbed into [y] and its
    descriptor released. *)
Definition absorb (y x : nat) (s : heap) : heap :=
  let s := upd y (set_size (wrap (size (blk s y) + size (blk s x)))) s in
  let s := upd y (set_next (next (blk s x))) s in
  heap_blk_release x s.

(** What holds in every reachable state: the heap is well formed, the pool
    has its [TM_MAX_BLOCKS] slots and the primary type is one of the two
    region types. *)
Definition reach_inv (s : heap) : Prop :=
  heap_wf s
  ∧ length (tm_blockpool s) = TM_MAX_BLOCKS
  ∧ (tm_main_type s = TM_TYPE_VRAM ∨ tm_main_type s = TM_TYPE_RAM).

(** The variables that describe the mapped region. *)
Definition region (s : heap) : Z * Z * Z * Z * Z :=
  (tm_main s, tm_main_uid s, tm_main_size s, tm_main_type s, tm_sub_type s).

(** A step that works on the free list only: the pool keeps its length,
    the usage counter and the allocated list are as before, and the
    descriptors [al] on the allocated list hold what they held. *)
Definition alloc_untouched (s s' : heap) (al : list nat) : Prop :=
  length (tm_blockpool s') = length (tm_blockpool s)
  ∧ tm_used s' = tm_used s
  ∧ tm_alloclist s' = tm_alloclist s
  ∧ ∀ j, j ∈ al → payload (blk s' j) = payload (blk s j).

(** What a successful run of [heap_blk_alloc] does to a state [s] whose free
    list is [l1 ++ c :: l2] when it takes [c]: the free list gains the
    blocks [ks] (skipped memory) and [us] (unused memory), [c] heads the
    allocated list, and no other listed descriptor changes. *)
Definition alloc_post (s s' : heap) (l1 : list nat) (c : nat)
    (l2 al ks us : list nat) (sz skip : Z) : Prop :=
  shape s' (l1 ++ ks ++ us ++ l2) (c :: al)
  ∧ length (tm_blockpool s') = length (tm_blockpool s)
  ∧ payload (blk s' c)
    = mk_block None (type (blk s c)) (wrap (base (blk s c) + skip))
        (wrap (offset (blk s c) + skip)) sz
  ∧ (∀ k, k ∈ ks →
       payload (blk s' k)
       = mk_block None (type (blk s c)) (base (blk s c)) (offset (blk s c))
           skip)
  ∧ (∀ u, u ∈ us →
       payload (blk s' u)
       = mk_block None (type (blk s c))
           (wrap (wrap (base (blk s c) + skip) + sz))
           (wrap (wrap (offset (blk s c) + skip) + sz))
           (wrap (wrap (size (blk s c) - skip) - sz)))
  ∧ (∀ j, j ∈ l1 ++ l2 ++ al → payload (blk s' j) = payload (blk s j))
  ∧ tm_used s' = wrap (tm_used s + sz)
  ∧ tm_alloclist s' = Some c
  ∧ (skip = 0 ∧ ks = [] ∨ skip ≠ 0 ∧ ∃ k, ks = [k])
  ∧ (wrap (skip + sz) = size (blk s c) ∧ us = []
     ∨ wrap (skip + sz) ≠ size (blk s c) ∧ ∃ u, us = [u]).

(** * Properties *)

(** ** Reading and writing descriptors *)

Global Arguments upd : simpl never.
Global Arguments blk : simpl never.

Section pool_access.
Implicit Types (s : heap) (i j : nat) (f : tm_block → tm_block).

(** [upd] writes the pool only. *)
Lemma upd_freelist s i f : tm_freelist (upd i f s) = tm_freelist s.
Proof. done. Qed.
Lemma upd_alloclist s i f : tm_alloclist (upd i f s) = tm_alloclist s.
Proof. done. Qed.
Lemma upd_used s i f : tm_used (upd i f s) = tm_used s.
Proof. done. Qed.
Lemma upd_blocknum s i f : tm_blocknum (upd i f s) = tm_blocknum s.
Proof. done. Qed.
Lemma upd_main_type s i f : tm_main_type (upd i f s) = tm_main_type s.
Proof. done. Qed.

(** Assignments to the other variables leave the pool alone. *)
Lemma blk_set_used s u j : blk (set_used u s) j = blk s j.
Proof. done. Qed.
Lemma blk_set_blocknum s n j : blk (set_blocknum n s) j = blk s j.
Proof. done. Qed.
Lemma blk_set_alloclist s p j : blk (set_alloclist p s) j = blk s j.
Proof. done. Qed.
Lemma blk_set_freelist s p j : blk (set_freelist p s) j = blk s j.
Proof. done. Qed.
Lemma pool_set_used s u : tm_blockpool (set_used u s) = tm_blockpool s.
Proof. done. Qed.
Lemma pool_set_blocknum s n :
  tm_blockpool (set_blocknum n s) = tm_blockpool s.
Proof. done. Qed.
Lemma pool_set_alloclist s p :
  tm_blockpool (set_alloclist p s) = tm_blockpool s.
Proof. done. Qed.
Lemma pool_set_freelist s p :
  tm_blockpool (set_freelist p s) = tm_blockpool s.
Proof. done. Qed.

Lemma pool_length_upd s i f :
  length (tm_blockpool (upd i f s)) = length (tm_blockpool s).
Proof. apply length_alter. Qed.

Lemma blk_upd_eq s i f :
  (i < length (tm_blockpool s))%nat → blk (upd i f s) i = f (blk s i).
Proof. intros Hi. by apply list_lookup_total_alter_eq. Qed.

Lemma blk_upd_ne s i j f : i ≠ j → blk (upd i f s) j = blk s j.
Proof. intros Hij. by apply list_lookup_total_alter_ne. Qed.

Lemma blk_upd s i j f :
  blk (upd i f s) j =
    if decide (i = j ∧ (i < length (tm_blockpool s))%nat)
    then f (blk s i) else blk s j.
Proof. apply list_lookup_total_alter. Qed.

(** A field assignment that writes the value already there changes
    nothing. *)
Lemma upd_id s i f : f (blk s i) = blk s i → upd i f s = s.
Proof.
  intros Hf. destruct s as [m uid msz mty sty used pool bn al fl].
  unfold upd, set_pool, blk in *; simpl in *. f_equal.
  apply list_eq. intros j. rewrite list_lookup_alter.
  case_decide as Hij; [subst j|done].
  destruct (pool !! i) as [b|] eqn:Hb; [simpl|done].
  rewrite (list_lookup_total_correct _ _ _ Hb) in Hf. by rewrite Hf.
Qed.

Lemma upd_upd s i f g : upd i f (upd i g s) = upd i (f ∘ g) s.
Proof.
  unfold upd, set_pool; simpl. by rewrite list_alter_alter_eq.
Qed.
End pool_access.

Create Rewrite HintDb heap.
#[global] Hint Rewrite upd_freelist upd_alloclist upd_used upd_blocknum
  upd_main_type pool_length_upd blk_set_used blk_set_blocknum
  blk_set_alloclist blk_set_freelist pool_set_used pool_set_blocknum
  pool_set_alloclist pool_set_freelist : heap.

(** ** List segments in the pool *)

Section chains.
Implicit Types (s : heap) (p q m : option nat) (l : list nat).

Lemma chain_nil s p q : chain s p [] q ↔ p = q.
Proof. done. Qed.

Lemma chain_cons s p x l q :
  chain s p (x :: l) q ↔
    p = Some x ∧ (x < length (tm_blockpool s))%nat
    ∧ chain s (next (blk s x)) l q.
Proof. done. Qed.

Lemma chain_entry s p l q : chain s p l q → p = entry l q.
Proof. destruct l; simpl; tauto. Qed.

Lemma chain_lt s p l q x :
  chain s p l q → x ∈ l → (x < length (tm_blockpool s))%nat.
Proof.
  revert p. induction l as [|y l IH]; intros p Hc Hx.
  - by apply elem_of_nil in Hx.
  - destruct Hc as (_ & Hy & Hc). apply elem_of_cons in Hx as [->|Hx]; eauto.
Qed.

Lemma chain_app s p l1 l2 q :
  chain s p (l1 ++ l2) q ↔ ∃ m, chain s p l1 m ∧ chain s m l2 q.
Proof.
  revert p. induction l1 as [|x l1 IH]; intros p; simpl.
  - split; [eauto|]. by intros (m & -> & ?).
  - rewrite IH. naive_solver.
Qed.

Lemma chain_split s p l1 l2 q :
  chain s p (l1 ++ l2) q →
  chain s p l1 (entry l2 q) ∧ chain s (entry l2 q) l2 q.
Proof.
  intros (m & H1 & H2)%chain_app.
  by rewrite <-(chain_entry _ _ _ _ H2).
Qed.

Lemma chain_snoc s p l x q :
  chain s p (l ++ [x]) q ↔
    chain s p l (Some x) ∧ (x < length (tm_blockpool s))%nat
    ∧ next (blk s x) = q.
Proof. rewrite chain_app. simpl. naive_solver. Qed.

(** Frame rule: a segment only depends on the links of its own slots. *)
Lemma chain_ext s s' p l q :
  length (tm_blockpool s') = length (tm_blockpool s) →
  (∀ x, x ∈ l → next (blk s' x) = next (blk s x)) →
  chain s p l q → chain s' p l q.
Proof.
  intros Hlen. revert p. induction l as [|x l IH]; intros p Hnext; [done|].
  simpl. intros (-> & Hx & Hc). split_and!; [done|lia|].
  rewrite Hnext by set_solver. apply IH; [|done].
  intros y Hy. apply Hnext. set_solver.
Qed.

(** Writing the link of the last slot of a segment redirects its end. *)
Lemma chain_redirect s s' p l x q q' :
  length (tm_blockpool s') = length (tm_blockpool s) →
  (∀ y, y ∈ l → next (blk s' y) = next (blk s y)) →
  next (blk s' x) = q' →
  chain s p (l ++ [x]) q → chain s' p (l ++ [x]) q'.
Proof.
  intros Hlen Hl Hx (Hc & Hlt & _)%chain_snoc. apply chain_snoc.
  split_and!; [by apply (chain_ext s)|lia|done].
Qed.

(** A segment that ends in [NULL] is determined by where it starts. *)
Lemma chain_det s p l l' : chain s p l None → chain s p l' None → l = l'.
Proof.
  revert p l'. induction l as [|x l IH]; intros p [|x' l']; simpl;
    [done|naive_solver|naive_solver|].
  intros (-> & _ & H) (? & _ & H'); simplify_eq. f_equal; eauto.
Qed.

Lemma NoDup_bounded_length (l : list nat) (n : nat) :
  NoDup l → (∀ x, x ∈ l → (x < n)%nat) → (length l ≤ n)%nat.
Proof.
  intros Hnd Hlt. trans (length (seq 0 n)); [|by rewrite length_seq].
  apply submseteq_length, NoDup_submseteq; [done|].
  intros x Hx. apply elem_of_seq. specialize (Hlt x Hx). lia.
Qed.

Lemma chain_walk s p l fuel :
  chain s p l None → (length l ≤ fuel)%nat → walk fuel s p = l.
Proof.
  revert p fuel. induction l as [|x l IH]; intros p fuel; simpl.
  - intros -> _. by destruct fuel.
  - intros (-> & _ & Hc) Hlen. destruct fuel as [|fuel]; [lia|].
    simpl. f_equal. apply IH; [done|lia].
Qed.
End chains.

Section relink.
Implicit Types (s : heap) (p q : option nat) (l : list nat).

Lemma last_or_cons prev0 x l : last_or prev0 (x :: l) = last_or (Some x) l.
Proof.
  unfold last_or. destruct l as [|y l]; [done|].
  change (last (x :: y :: l)) with (last (y :: l)).
  by destruct (last (y :: l)) eqn:E; [|apply last_None in E].
Qed.

Lemma last_or_None l : last_or None l = last l.
Proof. unfold last_or. by destruct (last l). Qed.

Lemma last_elem_of l x : last l = Some x → x ∈ l.
Proof. intros [l' ->]%last_Some. set_solver. Qed.

Lemma chain_pool_eq s s' p l q :
  tm_blockpool s' = tm_blockpool s → chain s p l q → chain s' p l q.
Proof.
  intros Hp. apply chain_ext; [by rewrite Hp|].
  intros x _. unfold blk. by rewrite Hp.
Qed.

Lemma chain_upd_frame s i f p l q :
  i ∉ l → chain s p l q → chain (upd i f s) p l q.
Proof.
  intros Hi. apply chain_ext; [apply pool_length_upd|].
  intros x Hx. rewrite blk_upd_ne; [done|]. intros ->. done.
Qed.

Lemma chain_upd_payload s i f p l q :
  (∀ b, next (f b) = next b) → chain s p l q → chain (upd i f s) p l q.
Proof.
  intros Hf. apply chain_ext; [apply pool_length_upd|].
  intros x Hx. rewrite blk_upd. case_decide as Hd; [|done].
  destruct Hd as [-> _]. apply Hf.
Qed.

(** Redirecting the end of a segment that starts at a list head [h]: the
    loop's [prev] is its last slot, or [NULL] when the segment is empty
    and the head itself is written. *)
Lemma chain_relink s s' h h' l q q' :
  chain s h l q → NoDup l →
  length (tm_blockpool s') = length (tm_blockpool s) →
  (∀ y, y ∈ l → last l ≠ Some y → next (blk s' y) = next (blk s y)) →
  (∀ x, last l = Some x → next (blk s' x) = q' ∧ h' = h) →
  (last l = None → h' = q') →
  chain s' h' l q'.
Proof.
  intros Hc Hnd Hlen Hframe Hlast Hnone.
  destruct (decide (l = [])) as [->|Hne].
  { simpl. by apply Hnone. }
  destruct (exists_last Hne) as [l0 [x ->]]. clear Hne Hnone.
  rewrite last_snoc in Hframe, Hlast.
  destruct (Hlast x eq_refl) as [Hx ->].
  apply NoDup_app in Hnd as (_ & Hnin & _).
  apply (chain_redirect s _ _ _ _ q); [done| |done|done].
  intros y Hy. apply Hframe; [set_solver|].
  intros [= <-]. apply (Hnin x Hy). set_solver.
Qed.

(** *** [link_free] and [link_alloc] *)

Lemma link_free_pool_length prev x s :
  length (tm_blockpool (link_free prev x s)) = length (tm_blockpool s).
Proof. destruct prev; [apply pool_length_upd|done]. Qed.

Lemma link_free_blk prev x s j :
  prev ≠ Some j → blk (link_free prev x s) j = blk s j.
Proof.
  intros Hj. destruct prev as [p'|]; [|done].
  apply blk_upd_ne. congruence.
Qed.

Lemma link_free_payload prev x s j :
  payload (blk (link_free prev x s) j) = payload (blk s j).
Proof.
  destruct prev as [p'|]; [|done]. simpl.
  rewrite blk_upd. by case_decide as Hd; [destruct Hd as [-> _]|].
Qed.

Lemma link_free_alloclist prev x s :
  tm_alloclist (link_free prev x s) = tm_alloclist s.
Proof. by destruct prev. Qed.

Lemma link_free_used prev x s : tm_used (link_free prev x s) = tm_used s.
Proof. by destruct prev. Qed.

Lemma link_free_chain s l x q :
  chain s (tm_freelist s) l q → NoDup l →
  chain (link_free (last l) x s) (tm_freelist (link_free (last l) x s)) l x.
Proof.
  intros Hc Hnd.
  apply (chain_relink s _ (tm_freelist s) _ _ q);
    [done|done|apply link_free_pool_length|..].
  - intros y _ Hy. by rewrite link_free_blk.
  - intros y Hy. rewrite Hy. simpl. split; [|done].
    rewrite blk_upd_eq; [done|].
    eapply chain_lt; [done|by apply last_elem_of].
  - by intros ->.
Qed.

Lemma link_free_frame s prev x p l q :
  (∀ y, prev = Some y → y ∉ l) →
  chain s p l q → chain (link_free prev x s) p l q.
Proof.
  intros Hp. apply chain_ext; [apply link_free_pool_length|].
  intros y Hy. rewrite link_free_blk; [done|]. by intros Hq%Hp.
Qed.

Lemma link_alloc_pool_length prev x s :
  length (tm_blockpool (link_alloc prev x s)) = length (tm_blockpool s).
Proof. destruct prev; [apply pool_length_upd|done]. Qed.

Lemma link_alloc_blk prev x s j :
  prev ≠ Some j → blk (link_alloc prev x s) j = blk s j.
Proof.
  intros Hj. destruct prev as [p'|]; [|done].
  apply blk_upd_ne. congruence.
Qed.

Lemma link_alloc_payload prev x s j :
  payload (blk (link_alloc prev x s) j) = payload (blk s j).
Proof.
  destruct prev as [p'|]; [|done]. simpl.
  rewrite blk_upd. by case_decide as Hd; [destruct Hd as [-> _]|].
Qed.

Lemma link_alloc_freelist prev x s :
  tm_freelist (link_alloc prev x s) = tm_freelist s.
Proof. by destruct prev. Qed.

Lemma link_alloc_used prev x s : tm_used (link_alloc prev x s) = tm_used s.
Proof. by destruct prev. Qed.

Lemma link_alloc_chain s l x q :
  chain s (tm_alloclist s) l q → NoDup l →
  chain (link_alloc (last l) x s) (tm_alloclist (link_alloc (last l) x s))
    l x.
Proof.
  intros Hc Hnd.
  apply (chain_relink s _ (tm_alloclist s) _ _ q);
    [done|done|apply link_alloc_pool_length|..].
  - intros y _ Hy. by rewrite link_alloc_blk.
  - intros y Hy. rewrite Hy. simpl. split; [|done].
    rewrite blk_upd_eq; [done|].
    eapply chain_lt; [done|by apply last_elem_of].
  - by intros ->.
Qed.

Lemma link_alloc_frame s prev x p l q :
  (∀ y, prev = Some y → y ∉ l) →
  chain s p l q → chain (link_alloc prev x s) p l q.
Proof.
  intros Hp. apply chain_ext; [apply link_alloc_pool_length|].
  intros y Hy. rewrite link_alloc_blk; [done|]. by intros Hq%Hp.
Qed.
End relink.

#[global] Hint Rewrite link_free_pool_length link_free_alloclist
  link_free_used link_alloc_pool_length link_alloc_freelist
  link_alloc_used : heap.

(** ** The steps of [heap_blk_alloc] on well-formed lists *)

(** Splits a [NoDup] hypothesis over appended lists into its parts. *)
Ltac nodup_split H :=
  repeat match type of H with
  | NoDup (_ ++ _) =>
      let H1 := fresh "Hnd" in let H2 := fresh "Hdisj" in
      apply NoDup_app in H as (H1 & H2 & H); try nodup_split H1
  | NoDup (_ :: _) =>
      let H1 := fresh "Hnin" in
      apply NoDup_cons in H as (H1 & H)
  end.

(** Reads the variables and the descriptors back through the assignments
    made before. *)
Ltac heap_proj :=
  cbn [tm_main tm_main_uid tm_main_size tm_main_type tm_sub_type tm_used
       tm_blockpool tm_blocknum tm_alloclist tm_freelist
       set_pool set_blocknum set_used set_alloclist set_freelist
       set_region set_types
       next type base offset size
       set_next set_type set_base set_offset set_size payload].

Ltac blk_simpl :=
  repeat first
    [ progress heap_proj
    | rewrite blk_upd_eq by (autorewrite with heap; assumption)
    | rewrite blk_upd_ne by congruence
    | rewrite link_free_blk by (assumption || congruence)
    | rewrite link_alloc_blk by (assumption || congruence)
    | rewrite link_free_payload
    | rewrite link_alloc_payload
    | progress autorewrite with heap ].

(** Replaces the start of the segment in the goal by a convertible term. *)
Ltac chain_head h :=
  lazymatch goal with |- chain _ ?p _ _ => change p with h end.

Section alloc_steps.
Implicit Types (s : heap) (l : list nat).

Lemma payload_eq b b' :
  payload b = payload b' ↔
    type b = type b' ∧ base b = base b' ∧ offset b = offset b'
    ∧ size b = size b'.
Proof. destruct b, b'; unfold payload, set_next; simpl. naive_solver. Qed.

Lemma last_not_elem l x : x ∉ l → last l ≠ Some x.
Proof. intros Hx Hl%last_elem_of. done. Qed.

Lemma alloc_take_lists s l1 c l2 al :
  lists s (l1 ++ c :: l2) al →
  lists (alloc_take (last l1) c s) (l1 ++ l2) (c :: al).
Proof.
  intros [Hf Ha Hnd].
  assert (Hc: (c < length (tm_blockpool s))%nat)
    by (eapply chain_lt; [exact Hf|set_solver]).
  apply chain_split in Hf as [Hf1 Hf2]. simpl in Hf2.
  destruct Hf2 as (_ & _ & Hf2).
  nodup_split Hnd.
  assert (Hpc: last l1 ≠ Some c) by (apply last_not_elem; set_solver).
  unfold alloc_take.
  set (s1 := link_free (last l1) (next (blk s c)) s).
  split.
  - apply (chain_pool_eq (upd c (set_next (tm_alloclist s1)) s1)); [done|].
    chain_head (tm_freelist s1).
    apply chain_upd_frame; [set_solver|].
    apply chain_app. exists (next (blk s c)). split.
    + by eapply link_free_chain.
    + apply link_free_frame; [|done].
      intros y Hy%last_elem_of. set_solver.
  - apply (chain_pool_eq (upd c (set_next (tm_alloclist s1)) s1)); [done|].
    chain_head (Some c).
    apply chain_cons.
    split_and!; [done|by subst s1; autorewrite with heap|].
    subst s1. blk_simpl.
    apply chain_upd_frame; [set_solver|].
    apply link_free_frame; [|done].
    intros y Hy%last_elem_of. set_solver.
  - apply NoDup_app. split_and!.
    + apply NoDup_app. split_and!; [done|set_solver|done].
    + set_solver.
    + apply NoDup_cons. split; [set_solver|done].
Qed.

Lemma alloc_take_effect s prev c :
  (c < length (tm_blockpool s))%nat → prev ≠ Some c →
  let s' := alloc_take prev c s in
  length (tm_blockpool s') = length (tm_blockpool s)
  ∧ (∀ j, payload (blk s' j) = payload (blk s j))
  ∧ tm_used s' = wrap (tm_used s + size (blk s c))
  ∧ tm_alloclist s' = Some c.
Proof.
  intros Hc Hpc. unfold alloc_take. cbv zeta. split_and!.
  - by autorewrite with heap.
  - intros j. autorewrite with heap.
    by destruct (decide (c = j)) as [<-|Hj]; blk_simpl.
  - by blk_simpl.
  - done.
Qed.

Lemma alloc_carve_skip_lists s l1 c l2 al k skip :
  lists s (l1 ++ c :: l2) al →
  (k < length (tm_blockpool s))%nat → k ∉ (l1 ++ c :: l2) ++ al →
  lists (alloc_carve_skip (last l1) c k skip s) (l1 ++ k :: c :: l2) al.
Proof.
  intros [Hf Ha Hnd] Hk Hfresh.
  apply chain_split in Hf as [Hf1 Hf2].
  nodup_split Hnd.
  assert (Hlast: ∀ y, last l1 = Some y → y ∈ l1) by apply last_elem_of.
  unfold alloc_carve_skip. cbv zeta.
  set (s1 := link_free (last l1) (Some k) s).
  split.
  - do 7 (apply chain_upd_payload; [done|]).
    chain_head (tm_freelist s1).
    apply chain_app. exists (Some k). split.
    + apply chain_upd_frame; [set_solver|]. by eapply link_free_chain.
    + apply chain_cons.
      split_and!; [done|by subst s1; autorewrite with heap|].
      subst s1. blk_simpl.
      apply chain_upd_frame; [set_solver|].
      apply link_free_frame; [|done].
      intros y Hy%Hlast. set_solver.
  - chain_head (tm_alloclist s1). subst s1. rewrite link_free_alloclist.
    do 7 (apply chain_upd_payload; [done|]).
    apply chain_upd_frame; [set_solver|].
    apply link_free_frame; [|done].
    intros y Hy%Hlast. set_solver.
  - apply NoDup_app. split_and!; [|set_solver|done].
    apply NoDup_app. split_and!; [done|set_solver|].
    apply NoDup_cons. split; [set_solver|].
    apply NoDup_cons. split; [set_solver|done].
Qed.

Lemma alloc_carve_skip_effect s prev c k skip :
  (c < length (tm_blockpool s))%nat → (k < length (tm_blockpool s))%nat →
  k ≠ c → prev ≠ Some c → prev ≠ Some k →
  let s' := alloc_carve_skip prev c k skip s in
  length (tm_blockpool s') = length (tm_blockpool s)
  ∧ payload (blk s' k)
    = mk_block None (type (blk s c)) (base (blk s c)) (offset (blk s c))
        skip
  ∧ payload (blk s' c)
    = mk_block None (type (blk s c)) (wrap (base (blk s c) + skip))
        (wrap (offset (blk s c) + skip)) (wrap (size (blk s c) - skip))
  ∧ (∀ j, j ≠ k → j ≠ c → payload (blk s' j) = payload (blk s j))
  ∧ next (blk s' c) = next (blk s c)
  ∧ tm_used s' = tm_used s
  ∧ tm_alloclist s' = tm_alloclist s.
Proof.
  intros Hc Hk Hkc Hpc Hpk. unfold alloc_carve_skip. cbv zeta.
  split_and!.
  - by autorewrite with heap.
  - by blk_simpl.
  - by blk_simpl.
  - intros j Hjk Hjc. by blk_simpl.
  - by blk_simpl.
  - by blk_simpl.
  - by blk_simpl.
Qed.

Lemma alloc_carve_unused_lists s l1 c l2 al u sz :
  lists s (l1 ++ c :: l2) al →
  (u < length (tm_blockpool s))%nat → u ∉ (l1 ++ c :: l2) ++ al →
  lists (alloc_carve_unused c u sz s) (l1 ++ c :: u :: l2) al.
Proof.
  intros [Hf Ha Hnd] Hu Hfresh.
  assert (Hc: (c < length (tm_blockpool s))%nat)
    by (eapply chain_lt; [exact Hf|set_solver]).
  assert (Huc: u ≠ c) by set_solver.
  apply chain_split in Hf as [Hf1 Hf2].
  apply chain_cons in Hf2 as (_ & _ & Hf2).
  nodup_split Hnd.
  unfold alloc_carve_unused. cbv zeta.
  split.
  - do 5 (apply chain_upd_payload; [done|]).
    chain_head (tm_freelist s).
    apply chain_app. exists (Some c). split.
    + do 2 (apply chain_upd_frame; [set_solver|]). done.
    + apply chain_cons.
      split_and!; [done|by autorewrite with heap|]. blk_simpl.
      apply chain_cons.
      split_and!; [done|by autorewrite with heap|]. blk_simpl.
      do 2 (apply chain_upd_frame; [set_solver|]). done.
  - chain_head (tm_alloclist s).
    do 5 (apply chain_upd_payload; [done|]).
    do 2 (apply chain_upd_frame; [set_solver|]). done.
  - apply NoDup_app. split_and!; [|set_solver|done].
    apply NoDup_app. split_and!; [done|set_solver|].
    apply NoDup_cons. split; [set_solver|].
    apply NoDup_cons. split; [set_solver|done].
Qed.

Lemma alloc_carve_unused_effect s c u sz :
  (c < length (tm_blockpool s))%nat → (u < length (tm_blockpool s))%nat →
  u ≠ c →
  let s' := alloc_carve_unused c u sz s in
  length (tm_blockpool s') = length (tm_blockpool s)
  ∧ payload (blk s' u)
    = mk_block None (type (blk s c)) (wrap (base (blk s c) + sz))
        (wrap (offset (blk s c) + sz)) (wrap (size (blk s c) - sz))
  ∧ payload (blk s' c)
    = mk_block None (type (blk s c)) (base (blk s c)) (offset (blk s c)) sz
  ∧ (∀ j, j ≠ u → j ≠ c → payload (blk s' j) = payload (blk s j))
  ∧ tm_used s' = tm_used s
  ∧ tm_alloclist s' = tm_alloclist s.
Proof.
  intros Hc Hu Huc. unfold alloc_carve_unused. cbv zeta.
  split_and!.
  - by autorewrite with heap.
  - by blk_simpl.
  - by blk_simpl.
  - intros j Hju Hjc. by blk_simpl.
  - by blk_simpl.
  - by blk_simpl.
Qed.
End alloc_steps.

(** ** The block pool *)

Section block_pool.
Implicit Types (s : heap) (l : list nat).

Lemma wrap_u32 x : u32 (wrap x).
Proof. unfold u32, wrap. apply Z.mod_pos_bound. lia. Qed.

Lemma wrap_id x : u32 x → wrap x = x.
Proof. unfold u32, wrap. intros. by apply Z.mod_small. Qed.

Lemma heap_blk_new_Some s k s' :
  heap_blk_new s = (Some k, s') →
  (k < length (tm_blockpool s))%nat ∧ type (blk s k) = -1
  ∧ s' = set_blocknum (tm_blocknum s + 1) (upd k (set_type 0) s).
Proof.
  unfold heap_blk_new.
  destruct (list_find _ _) as [[i b]|] eqn:Hfind; [|done].
  intros [= <- <-]. apply list_find_Some in Hfind as (Hi & Hb & _).
  split_and!; [by eapply lookup_lt_Some| |done].
  unfold blk. by rewrite (list_lookup_total_correct _ _ _ Hi).
Qed.

Lemma heap_blk_new_None s s' :
  heap_blk_new s = (None, s') → s' = s ∧ free_slots s = 0%nat.
Proof.
  unfold heap_blk_new, free_slots.
  destruct (list_find _ _) as [[i b]|] eqn:Hfind; [done|].
  intros [= <-]. split; [done|].
  apply list_find_None in Hfind.
  induction Hfind as [|b l Hb _ IH]; [done|].
  by rewrite filter_cons_False.
Qed.

Lemma free_slots_pos s :
  free_slots s ≠ 0%nat → ∃ k s', heap_blk_new s = (Some k, s').
Proof.
  intros Hfs. destruct (heap_blk_new s) as [[k|] s'] eqn:Hnew; [eauto|].
  by apply heap_blk_new_None in Hnew as [_ ?].
Qed.

Lemma filter_alter_length (P : tm_block → Prop) `{!∀ b, Decision (P b)}
    (f : tm_block → tm_block) (pool : list tm_block) (i : nat) (b : tm_block) :
  pool !! i = Some b → P b → ¬ P (f b) →
  S (length (filter P (alter f i pool))) = length (filter P pool).
Proof.
  revert i. induction pool as [|a pool IH]; intros [|i] Hi Hb Hfb;
    simplify_eq/=.
  - rewrite filter_cons_False, filter_cons_True by done. done.
  - destruct (decide (P a)).
    + rewrite !filter_cons_True by done. simpl. f_equal. eauto.
    + rewrite !filter_cons_False by done. eauto.
Qed.

Lemma heap_blk_new_free_slots s k s' :
  heap_blk_new s = (Some k, s') → S (free_slots s') = free_slots s.
Proof.
  intros (Hk & Hty & ->)%heap_blk_new_Some. unfold free_slots.
  apply lookup_lt_is_Some_2 in Hk as [b Hb].
  unfold blk in Hty. rewrite (list_lookup_total_correct _ _ _ Hb) in Hty.
  by apply (filter_alter_length _ _ _ _ b).
Qed.

(** Releasing the slot just acquired restores the state exactly. *)
Lemma heap_blk_release_new s k s' :
  heap_blk_new s = (Some k, s') → heap_blk_release k s' = s.
Proof.
  intros (Hk & Hty & ->)%heap_blk_new_Some.
  unfold heap_blk_release. cbv zeta.
  change (upd k (set_type (-1)) (set_blocknum ?n ?s))
    with (set_blocknum n (upd k (set_type (-1)) s)).
  rewrite upd_upd, upd_id.
  - destruct s; unfold set_blocknum; simpl. f_equal. lia.
  - destruct (blk s k); simpl in *. by subst.
Qed.

Lemma shape_res_nil s fl al : shape s fl al ↔ shape_res s fl al [].
Proof.
  split.
  - intros [Hl Hu Hr]. split; [done|constructor|set_solver| |done].
    intros i Hi. rewrite app_nil_r. by apply Hu.
  - intros [Hl _ _ Hu Hr]. split; [done| |done].
    intros i Hi. rewrite <-(app_nil_r (fl ++ al)). by apply Hu.
Qed.

Lemma shape_res_perm s fl al R R' :
  R ≡ₚ R' → shape_res s fl al R → shape_res s fl al R'.
Proof.
  intros HR [Hl Hnd Hf Hu Hr]. split; [done|by rewrite <-HR| | |done].
  - intros k Hk. apply Hf. by rewrite HR.
  - intros i Hi. rewrite (Hu i Hi). by rewrite HR.
Qed.

Lemma lists_payload s s' fl al :
  length (tm_blockpool s') = length (tm_blockpool s) →
  tm_freelist s' = tm_freelist s → tm_alloclist s' = tm_alloclist s →
  (∀ j, j ∈ fl ++ al → next (blk s' j) = next (blk s j)) →
  lists s fl al → lists s' fl al.
Proof.
  intros Hlen Hfl Hal Hnext [Hf Ha Hnd]. split; [| |done].
  - rewrite Hfl. apply (chain_ext s); [done| |done].
    intros x Hx. apply Hnext. set_solver.
  - rewrite Hal. apply (chain_ext s); [done| |done].
    intros x Hx. apply Hnext. set_solver.
Qed.

(** Acquiring a slot reserves it and touches nothing that is listed. *)
Lemma heap_blk_new_shape s fl al R k s' :
  shape_res s fl al R → heap_blk_new s = (Some k, s') →
  shape_res s' fl al (k :: R)
  ∧ length (tm_blockpool s') = length (tm_blockpool s)
  ∧ (∀ j, j ≠ k → blk s' j = blk s j)
  ∧ tm_used s' = tm_used s ∧ tm_alloclist s' = tm_alloclist s.
Proof.
  intros [Hl Hnd Hf Hu Hr] (Hk & Hty & ->)%heap_blk_new_Some.
  assert (Hkn: k ∉ (fl ++ al) ++ R).
  { intros Hin. by apply (Hu k Hk) in Hin. }
  assert (Hfr: ∀ j, j ≠ k →
    blk (set_blocknum (tm_blocknum s + 1) (upd k (set_type 0) s)) j
    = blk s j).
  { intros j Hj. by blk_simpl. }
  split_and!; [|by autorewrite with heap|done..].
  split.
  - apply (lists_payload s); [by autorewrite with heap|done..| |done].
    intros j Hj. rewrite Hfr; [done|set_solver].
  - apply NoDup_cons. split; [set_solver|done].
  - intros j [->|Hj]%elem_of_cons.
    + split; [by autorewrite with heap|set_solver].
    + autorewrite with heap. by apply Hf.
  - intros i Hi. autorewrite with heap in Hi.
    destruct (decide (i = k)) as [->|Hik].
    + blk_simpl. split; [set_solver|done].
    + rewrite Hfr by done. rewrite (Hu i Hi). set_solver.
  - intros i Hi. rewrite Hfr; [by apply Hr|set_solver].
Qed.
End block_pool.

(** ** The steps of [heap_blk_alloc] preserve the shape *)

Section alloc_shape.
Implicit Types (s : heap) (l : list nat).

Lemma payload_fields b b' :
  payload b = b' →
  type b = type b' ∧ base b = base b' ∧ offset b = offset b'
  ∧ size b = size b'.
Proof. intros <-. by destruct b. Qed.

(** Membership in the lists before and after a block is linked in or
    out. *)
Lemma elem_of_insert_mid (l1 l2 al R : list nat) (c k i : nat) :
  i ∈ ((l1 ++ k :: c :: l2) ++ al) ++ R
  ↔ i ∈ ((l1 ++ c :: l2) ++ al) ++ k :: R.
Proof. set_solver. Qed.

Lemma elem_of_insert_after (l1 l2 al R : list nat) (c u i : nat) :
  i ∈ ((l1 ++ c :: u :: l2) ++ al) ++ R
  ↔ i ∈ ((l1 ++ c :: l2) ++ al) ++ u :: R.
Proof. set_solver. Qed.

Lemma elem_of_move (l1 l2 al R : list nat) (c i : nat) :
  i ∈ ((l1 ++ l2) ++ c :: al) ++ R ↔ i ∈ ((l1 ++ c :: l2) ++ al) ++ R.
Proof. set_solver. Qed.

Lemma alloc_carve_skip_shape s l1 c l2 al R k skip :
  shape_res s (l1 ++ c :: l2) al (k :: R) → u32 skip →
  shape_res (alloc_carve_skip (last l1) c k skip s)
    (l1 ++ k :: c :: l2) al R.
Proof.
  intros [Hl Hnd Hf Hu Hr] Hskip.
  destruct (Hf k) as [Hk Hkn]; [set_solver|].
  assert (Hc: (c < length (tm_blockpool s))%nat).
  { eapply chain_lt; [apply (ls_free _ _ _ Hl)|set_solver]. }
  assert (Hkc: k ≠ c) by set_solver.
  assert (Hcin: c ∈ (l1 ++ c :: l2) ++ al) by set_solver.
  assert (Hcin': c ∈ ((l1 ++ c :: l2) ++ al) ++ k :: R) by set_solver.
  assert (Hkin': k ∈ ((l1 ++ c :: l2) ++ al) ++ k :: R) by set_solver.
  assert (Hpc: last l1 ≠ Some c).
  { pose proof (ls_nodup _ _ _ Hl) as Hnd'. nodup_split Hnd'.
    apply last_not_elem; set_solver. }
  assert (Hpk: last l1 ≠ Some k) by (apply last_not_elem; set_solver).
  assert (Hold: ∀ i, i ∈ (l1 ++ k :: c :: l2) ++ al → i ≠ k →
                     i ∈ (l1 ++ c :: l2) ++ al) by set_solver.
  assert (HfR: ∀ j, j ∈ R → (j < length (tm_blockpool s))%nat
                            ∧ j ∉ (l1 ++ k :: c :: l2) ++ al).
  { apply NoDup_cons in Hnd as [HkR _]. intros j Hj.
    destruct (Hf j) as [? ?]; [set_solver|]. split; [done|]. set_solver. }
  apply NoDup_cons in Hnd as [_ HndR].
  destruct (Hr c Hcin) as (Hcb & Hco & Hcs).
  pose proof (proj2 (Hu c Hc) Hcin') as Hcty.
  destruct (alloc_carve_skip_effect s (last l1) c k skip)
    as (Hlen & Ek & Ec & Efr & _); [done..|].
  apply payload_fields in Ek as (Ekt & Ekb & Eko & Eks).
  apply payload_fields in Ec as (Ect & Ecb & Eco & Ecs).
  cbn [type base offset size] in Ekt, Ekb, Eko, Eks, Ect, Ecb, Eco, Ecs.
  split.
  - by apply alloc_carve_skip_lists.
  - done.
  - intros j Hj. rewrite Hlen. by apply HfR.
  - intros i Hi. rewrite Hlen in Hi. rewrite elem_of_insert_mid.
    destruct (decide (i = k)) as [->|Hik]; [|destruct (decide (i = c)) as [->|Hic]].
    + by rewrite Ekt.
    + rewrite Ect. by apply Hu.
    + specialize (Efr i Hik Hic). apply payload_eq in Efr as (-> & _).
      by apply Hu.
  - intros i Hi.
    destruct (decide (i = k)) as [->|Hik]; [|destruct (decide (i = c)) as [->|Hic]].
    + rewrite Ekb, Eko, Eks. done.
    + rewrite Ecb, Eco, Ecs. auto using wrap_u32.
    + specialize (Efr i Hik Hic). apply payload_eq in Efr as (_ & -> & -> & ->).
      by apply Hr, Hold.
Qed.

Lemma alloc_carve_unused_shape s l1 c l2 al R u sz :
  shape_res s (l1 ++ c :: l2) al (u :: R) → u32 sz →
  shape_res (alloc_carve_unused c u sz s) (l1 ++ c :: u :: l2) al R.
Proof.
  intros [Hl Hnd Hf Hu Hr] Hsz.
  destruct (Hf u) as [Hk Hkn]; [set_solver|].
  assert (Hc: (c < length (tm_blockpool s))%nat).
  { eapply chain_lt; [apply (ls_free _ _ _ Hl)|set_solver]. }
  assert (Hkc: u ≠ c) by set_solver.
  assert (Hcin: c ∈ (l1 ++ c :: l2) ++ al) by set_solver.
  assert (Hcin': c ∈ ((l1 ++ c :: l2) ++ al) ++ u :: R) by set_solver.
  assert (Hkin': u ∈ ((l1 ++ c :: l2) ++ al) ++ u :: R) by set_solver.
  assert (Hold: ∀ i, i ∈ (l1 ++ c :: u :: l2) ++ al → i ≠ u →
                     i ∈ (l1 ++ c :: l2) ++ al) by set_solver.
  assert (HfR: ∀ j, j ∈ R → (j < length (tm_blockpool s))%nat
                            ∧ j ∉ (l1 ++ c :: u :: l2) ++ al).
  { apply NoDup_cons in Hnd as [HkR _]. intros j Hj.
    destruct (Hf j) as [? ?]; [set_solver|]. split; [done|]. set_solver. }
  apply NoDup_cons in Hnd as [_ HndR].
  destruct (Hr c Hcin) as (Hcb & Hco & Hcs).
  pose proof (proj2 (Hu c Hc) Hcin') as Hcty.
  destruct (alloc_carve_unused_effect s c u sz)
    as (Hlen & Ek & Ec & Efr & _); [done..|].
  apply payload_fields in Ek as (Ekt & Ekb & Eko & Eks).
  apply payload_fields in Ec as (Ect & Ecb & Eco & Ecs).
  cbn [type base offset size] in Ekt, Ekb, Eko, Eks, Ect, Ecb, Eco, Ecs.
  split.
  - by apply alloc_carve_unused_lists.
  - done.
  - intros j Hj. rewrite Hlen. by apply HfR.
  - intros i Hi. rewrite Hlen in Hi. rewrite elem_of_insert_after.
    destruct (decide (i = u)) as [->|Hik]; [|destruct (decide (i = c)) as [->|Hic]].
    + by rewrite Ekt.
    + rewrite Ect. by apply Hu.
    + specialize (Efr i Hik Hic). apply payload_eq in Efr as (-> & _).
      by apply Hu.
  - intros i Hi.
    destruct (decide (i = u)) as [->|Hik]; [|destruct (decide (i = c)) as [->|Hic]].
    + rewrite Ekb, Eko, Eks. auto using wrap_u32.
    + rewrite Ecb, Eco, Ecs. done.
    + specialize (Efr i Hik Hic). apply payload_eq in Efr as (_ & -> & -> & ->).
      by apply Hr, Hold.
Qed.

Lemma alloc_take_shape s l1 c l2 al R :
  shape_res s (l1 ++ c :: l2) al R →
  shape_res (alloc_take (last l1) c s) (l1 ++ l2) (c :: al) R.
Proof.
  intros [Hl Hnd Hf Hu Hr].
  assert (Hc: (c < length (tm_blockpool s))%nat).
  { eapply chain_lt; [apply (ls_free _ _ _ Hl)|set_solver]. }
  assert (Hpc: last l1 ≠ Some c).
  { pose proof (ls_nodup _ _ _ Hl) as Hnd'. nodup_split Hnd'.
    apply last_not_elem; set_solver. }
  assert (Hold: ∀ i, i ∈ (l1 ++ l2) ++ c :: al →
                     i ∈ (l1 ++ c :: l2) ++ al) by set_solver.
  assert (HfR: ∀ j, j ∈ R → (j < length (tm_blockpool s))%nat
                            ∧ j ∉ (l1 ++ l2) ++ c :: al).
  { intros j Hj. destruct (Hf j Hj) as [? ?]. split; [done|]. set_solver. }
  destruct (alloc_take_effect s (last l1) c) as (Hlen & Efr & _); [done..|].
  split.
  - by apply alloc_take_lists.
  - done.
  - intros j Hj. rewrite Hlen. by apply HfR.
  - intros i Hi. rewrite Hlen in Hi. rewrite elem_of_move.
    specialize (Efr i). apply payload_eq in Efr as (-> & _).
    by apply Hu.
  - intros i Hi.
    specialize (Efr i). apply payload_eq in Efr as (_ & -> & -> & ->).
    by apply Hr, Hold.
Qed.
End alloc_shape.

(** Closes an equation whose sides are syntactically the same. *)
Ltac syn_refl :=
  lazymatch goal with |- ?x = ?y => constr_eq x y; reflexivity end.

Section alloc_link.
Implicit Types (s : heap) (l : list nat).

Lemma wrap_add_sub skip sz x :
  u32 sz → u32 x → wrap (skip + sz) = x ↔ sz = wrap (x - skip).
Proof.
  unfold wrap. intros Hsz Hx. split.
  - intros <-. rewrite Zminus_mod_idemp_l.
    replace (skip + sz - skip) with sz by lia.
    symmetry. by apply Z.mod_small.
  - intros ->. rewrite Zplus_mod_idemp_r.
    replace (skip + (x - skip)) with x by lia. by apply Z.mod_small.
Qed.

(** The skip stage: facts about [skip_stage] for [ks] as acquired. *)
Lemma skip_stage_spec s l1 c l2 al ks us skip :
  shape_res s (l1 ++ c :: l2) al (ks ++ us) → u32 skip →
  (skip = 0 ∧ ks = [] ∨ skip ≠ 0 ∧ ∃ k, ks = [k]) →
  let s1 := skip_stage (last l1) c ks skip s in
  shape_res s1 ((l1 ++ ks) ++ c :: l2) al us
  ∧ length (tm_blockpool s1) = length (tm_blockpool s)
  ∧ payload (blk s1 c)
    = mk_block None (type (blk s c)) (wrap (base (blk s c) + skip))
        (wrap (offset (blk s c) + skip)) (wrap (size (blk s c) - skip))
  ∧ (∀ k, k ∈ ks →
       payload (blk s1 k)
       = mk_block None (type (blk s c)) (base (blk s c))
           (offset (blk s c)) skip)
  ∧ (∀ j, j ∉ ks → j ≠ c → payload (blk s1 j) = payload (blk s j))
  ∧ tm_used s1 = tm_used s
  ∧ tm_alloclist s1 = tm_alloclist s.
Proof.
  intros Hsh Hskip [[-> ->]|(Hs0 & k & ->)]; cbn [skip_stage].
  - destruct (sr_range _ _ _ _ Hsh c) as (Hcb & Hco & Hcs); [set_solver|].
    rewrite app_nil_r. split_and!; try done.
    + rewrite !Z.add_0_r, Z.sub_0_r, !wrap_id by done. by destruct (blk s c).
    + intros k Hk. by apply elem_of_nil in Hk.
  - assert (Hc: (c < length (tm_blockpool s))%nat).
    { eapply chain_lt; [apply (ls_free _ _ _ (sr_lists _ _ _ _ Hsh))|set_solver]. }
    destruct (sr_fresh _ _ _ _ Hsh k) as [Hkl Hkn]; [set_solver|].
    assert (Hkc: k ≠ c) by set_solver.
    assert (Hpc: last l1 ≠ Some c).
    { pose proof (ls_nodup _ _ _ (sr_lists _ _ _ _ Hsh)) as Hnd.
      nodup_split Hnd. apply last_not_elem; set_solver. }
    assert (Hpk: last l1 ≠ Some k) by (apply last_not_elem; set_solver).
    destruct (alloc_carve_skip_effect s (last l1) c k skip)
      as (Hlen & Ek & Ec & Efr & _ & Eu & Ea); [done..|].
    split_and!; try done.
    + rewrite <-app_assoc. by apply alloc_carve_skip_shape.
    + by intros j ->%list_elem_of_singleton.
    + intros j Hj Hjc. apply Efr; [|done]. intros ->. apply Hj. by left.
Qed.

(** The unused stage, likewise. *)
Lemma unused_stage_spec s l1 c l2 al us sz :
  shape_res s (l1 ++ c :: l2) al us → u32 sz →
  (sz = size (blk s c) ∧ us = [] ∨ sz ≠ size (blk s c) ∧ ∃ u, us = [u]) →
  let s2 := unused_stage c us sz s in
  shape_res s2 (l1 ++ c :: us ++ l2) al []
  ∧ length (tm_blockpool s2) = length (tm_blockpool s)
  ∧ payload (blk s2 c)
    = mk_block None (type (blk s c)) (base (blk s c)) (offset (blk s c)) sz
  ∧ (∀ u, u ∈ us →
       payload (blk s2 u)
       = mk_block None (type (blk s c)) (wrap (base (blk s c) + sz))
           (wrap (offset (blk s c) + sz)) (wrap (size (blk s c) - sz)))
  ∧ (∀ j, j ∉ us → j ≠ c → payload (blk s2 j) = payload (blk s j))
  ∧ tm_used s2 = tm_used s
  ∧ tm_alloclist s2 = tm_alloclist s.
Proof.
  intros Hsh Hsz [[-> ->]|(Hs0 & u & ->)]; cbn [unused_stage].
  - split_and!; try done.
    intros k Hk. by apply elem_of_nil in Hk.
  - assert (Hc: (c < length (tm_blockpool s))%nat).
    { eapply chain_lt; [apply (ls_free _ _ _ (sr_lists _ _ _ _ Hsh))|set_solver]. }
    destruct (sr_fresh _ _ _ _ Hsh u) as [Hkl Hkn]; [set_solver|].
    assert (Hkc: u ≠ c) by set_solver.
    destruct (alloc_carve_unused_effect s c u sz)
      as (Hlen & Ek & Ec & Efr & Eu & Ea); [done..|].
    split_and!; try done.
    + by apply alloc_carve_unused_shape.
    + by intros j ->%list_elem_of_singleton.
    + intros j Hj Hjc. apply Efr; [|done]. intros ->. apply Hj. by left.
Qed.

Lemma alloc_link_eq s prev c sz skip ks us :
  (c < length (tm_blockpool s))%nat → u32 sz → u32 (size (blk s c)) →
  prev ≠ Some c →
  (∀ k, k ∈ ks →
     (k < length (tm_blockpool s))%nat ∧ k ≠ c ∧ prev ≠ Some k) →
  (skip = 0 ∧ ks = [] ∨ skip ≠ 0 ∧ ∃ k, ks = [k]) →
  (wrap (skip + sz) = size (blk s c) ∧ us = []
   ∨ wrap (skip + sz) ≠ size (blk s c) ∧ ∃ u, us = [u]) →
  alloc_link sz prev c skip (head ks) (head us) s
  = alloc_take (last_or prev ks) c
      (unused_stage c us sz (skip_stage prev c ks skip s)).
Proof.
  intros Hc Hsz Hcs Hpc Hk Hks Hus. unfold alloc_link. cbv zeta.
  destruct Hks as [[-> ->]|(Hs0 & k & ->)].
  - change (0 =? 0) with true. cbn [head fst snd skip_stage].
    destruct Hus as [[Hw ->]|(Hw & u & ->)]; cbn [head unused_stage].
    + rewrite Z.add_0_l, wrap_id in Hw by done.
      by rewrite (proj2 (Z.eqb_eq _ _) Hw).
    + rewrite Z.add_0_l, wrap_id in Hw by done.
      by rewrite (proj2 (Z.eqb_neq _ _) Hw).
  - rewrite (proj2 (Z.eqb_neq skip 0) Hs0). cbn [head fst snd skip_stage].
    destruct (Hk k) as (Hkl & Hkc & Hpk); [set_solver|].
    destruct (alloc_carve_skip_effect s prev c k skip)
      as (_ & _ & Ec & _); [done..|].
    apply payload_fields in Ec as (_ & _ & _ & Ecs).
    cbn [size] in Ecs. rewrite Ecs.
    destruct Hus as [[Hw ->]|(Hw & u & ->)]; cbn [head unused_stage].
    + apply wrap_add_sub in Hw; [|done..].
      by rewrite (proj2 (Z.eqb_eq _ _) Hw).
    + rewrite wrap_add_sub in Hw by done.
      by rewrite (proj2 (Z.eqb_neq _ _) Hw).
Qed.

Lemma last_app_or (l1 ks : list nat) :
  last (l1 ++ ks) = last_or (last l1) ks.
Proof.
  unfold last_or. destruct (decide (ks = [])) as [->|Hne].
  - by rewrite app_nil_r.
  - destruct (exists_last Hne) as [ks' [k ->]].
    by rewrite app_assoc, !last_snoc.
Qed.

Lemma alloc_link_spec s l1 c l2 al sz skip ks us :
  shape_res s (l1 ++ c :: l2) al (ks ++ us) → u32 sz → u32 skip →
  (skip = 0 ∧ ks = [] ∨ skip ≠ 0 ∧ ∃ k, ks = [k]) →
  (wrap (skip + sz) = size (blk s c) ∧ us = []
   ∨ wrap (skip + sz) ≠ size (blk s c) ∧ ∃ u, us = [u]) →
  alloc_post s (alloc_link sz (last l1) c skip (head ks) (head us) s)
    l1 c l2 al ks us sz skip.
Proof.
  intros Hsh Hsz Hskip Hks Hus.
  assert (Hc: (c < length (tm_blockpool s))%nat).
  { eapply chain_lt; [apply (ls_free _ _ _ (sr_lists _ _ _ _ Hsh))|set_solver]. }
  destruct (sr_range _ _ _ _ Hsh c) as (Hcb & Hco & Hcs); [set_solver|].
  pose proof (sr_fresh _ _ _ _ Hsh) as Hfresh.
  assert (Hpc: last l1 ≠ Some c).
  { pose proof (ls_nodup _ _ _ (sr_lists _ _ _ _ Hsh)) as Hnd.
    nodup_split Hnd. apply last_not_elem; set_solver. }
  assert (Hkfacts: ∀ k, k ∈ ks →
    (k < length (tm_blockpool s))%nat ∧ k ≠ c ∧ last l1 ≠ Some k).
  { intros k Hk. destruct (Hfresh k) as [? ?]; [set_solver|].
    split_and!; [done|set_solver|apply last_not_elem; set_solver]. }
  assert (Hkc: ∀ k, k ∈ ks → k ≠ c) by (intros k Hk; by apply Hkfacts).
  assert (Huc: ∀ u, u ∈ us → u ≠ c).
  { intros u Hu. destruct (Hfresh u) as [? ?]; set_solver. }
  assert (Hku: ∀ k, k ∈ ks → k ∉ us).
  { pose proof (sr_nodup _ _ _ _ Hsh) as HndR.
    apply NoDup_app in HndR as (_ & HndR & _). done. }
  assert (Hjks: ∀ j, j ∈ l1 ++ l2 ++ al → (j ∉ ks) ∧ (j ∉ us) ∧ j ≠ c).
  { pose proof (ls_nodup _ _ _ (sr_lists _ _ _ _ Hsh)) as Hnd.
    nodup_split Hnd. intros j Hj. split_and!.
    - intros Hk. destruct (Hfresh j) as [? ?]; set_solver.
    - intros Hk. destruct (Hfresh j) as [? ?]; set_solver.
    - set_solver. }
  assert (Hpc': last (l1 ++ ks) ≠ Some c).
  { rewrite last_app_or. unfold last_or.
    destruct (last ks) as [k|] eqn:Hk; [|done].
    apply last_elem_of, Hkc in Hk. congruence. }
  rewrite alloc_link_eq by done. rewrite <-last_app_or.
  destruct (skip_stage_spec s l1 c l2 al ks us skip Hsh Hskip Hks)
    as (Hsh1 & Hlen1 & Ec1 & Ek1 & Efr1 & Eu1 & Ea1).
  set (s1 := skip_stage (last l1) c ks skip s) in *.
  apply payload_fields in Ec1 as (Ect1 & Ecb1 & Eco1 & Ecs1).
  cbn [type base offset size] in Ect1, Ecb1, Eco1, Ecs1.
  assert (Hus1: sz = size (blk s1 c) ∧ us = []
                ∨ sz ≠ size (blk s1 c) ∧ ∃ u, us = [u]).
  { rewrite Ecs1, <-wrap_add_sub by done. exact Hus. }
  destruct (unused_stage_spec s1 (l1 ++ ks) c l2 al us sz Hsh1 Hsz Hus1)
    as (Hsh2 & Hlen2 & Ec2 & Eu2 & Efr2 & Euu2 & Ea2).
  set (s2 := unused_stage c us sz s1) in *.
  pose proof (alloc_take_shape s2 (l1 ++ ks) c (us ++ l2) al [] Hsh2) as Hsh3.
  destruct (alloc_take_effect s2 (last (l1 ++ ks)) c)
    as (Hlen3 & Efr3 & Euu3 & Ea3); [congruence|done|].
  set (s3 := alloc_take (last (l1 ++ ks)) c s2) in *.
  unfold alloc_post. split_and!; [| | | | | | | |done|done].
  - apply shape_res_nil. by rewrite <-app_assoc in Hsh3.
  - congruence.
  - rewrite Efr3, Ec2. by rewrite Ect1, Ecb1, Eco1.
  - intros k Hk. rewrite Efr3, Efr2 by eauto. by apply Ek1.
  - intros u Hu. rewrite Efr3, Eu2 by done.
    by rewrite Ect1, Ecb1, Eco1, Ecs1.
  - intros j Hj. destruct (Hjks j Hj) as (Hj1 & Hj2 & Hj3).
    by rewrite Efr3, Efr2, Efr1.
  - rewrite Euu3, Euu2, Eu1.
    apply payload_fields in Ec2 as (_ & _ & _ & ->). done.
  - done.
Qed.

(** [alloc_post] only looks at the listed descriptors of the state the
    allocation started from. *)
Lemma alloc_post_pre s0 s s' l1 c l2 al ks us sz skip :
  length (tm_blockpool s) = length (tm_blockpool s0) →
  tm_used s = tm_used s0 →
  (∀ j, j ∈ (l1 ++ c :: l2) ++ al → blk s j = blk s0 j) →
  alloc_post s s' l1 c l2 al ks us sz skip →
  alloc_post s0 s' l1 c l2 al ks us sz skip.
Proof.
  intros Hlen Hused Hblk. unfold alloc_post.
  rewrite Hlen, Hused, (Hblk c) by set_solver.
  intros (? & ? & ? & ? & ? & Hfr & ? & ? & ? & ?). split_and!; try done.
  intros j Hj. rewrite <-Hblk by set_solver. by apply Hfr.
Qed.

Lemma heap_blk_alloc_at_spec s l1 c l2 al sz skip :
  shape s (l1 ++ c :: l2) al → u32 sz → u32 skip →
  ((free_slots s < slots_needed sz skip (blk s c))%nat
   ∧ heap_blk_alloc_at sz (last l1) c skip s = (None, s))
  ∨ ((slots_needed sz skip (blk s c) ≤ free_slots s)%nat
     ∧ ∃ s' ks us,
         heap_blk_alloc_at sz (last l1) c skip s = (Some c, s')
         ∧ alloc_post s s' l1 c l2 al ks us sz skip).
Proof.
  intros Hsh%shape_res_nil Hsz Hskip.
  unfold heap_blk_alloc_at, slots_needed. cbv zeta.
  destruct (Z.eqb_spec skip 0) as [->|Hs0]; cbn [negb andb fst snd].
  - (* no padding *)
    destruct (Z.eqb_spec (wrap (0 + sz)) (size (blk s c))) as [Hw|Hw];
      cbn [negb andb fst snd].
    + right. split; [simpl; lia|]. eexists _, [], []. split; [reflexivity|].
      apply (alloc_link_spec s l1 c l2 al sz 0 [] []); auto.
    + destruct (heap_blk_new s) as [[u|] s1] eqn:Hnew; cbn [fst snd].
      * right. rewrite bool_decide_eq_false_2 by done.
        pose proof (heap_blk_new_free_slots _ _ _ Hnew).
        split; [simpl; lia|]. eexists _, [], [u]. split; [reflexivity|].
        destruct (heap_blk_new_shape _ _ _ _ _ _ Hsh Hnew)
          as (Hsh1 & Hlen1 & Hfr1 & Hu1 & _).
        assert (Hb: ∀ j, j ∈ (l1 ++ c :: l2) ++ al → blk s1 j = blk s j).
        { intros j Hj. apply Hfr1. intros ->.
          destruct (sr_fresh _ _ _ _ Hsh1 u); [by left|done]. }
        apply (alloc_post_pre s s1); [done..|].
        apply (alloc_link_spec s1 l1 c l2 al sz 0 [] [u]); auto.
        right. rewrite Hb by set_solver. eauto.
      * left. rewrite bool_decide_eq_true_2 by done.
        apply heap_blk_new_None in Hnew as [-> Hfs].
        split; [simpl; lia|done].
  - (* padding needed *)
    destruct (heap_blk_new s) as [[k|] s1] eqn:Hnew; cbn [fst snd].
    2: { left. rewrite bool_decide_eq_true_2 by done. cbn [negb andb].
         apply heap_blk_new_None in Hnew as [-> Hfs].
         split; [simpl; lia|done]. }
    rewrite bool_decide_eq_false_2 by done. cbn [negb andb].
    pose proof (heap_blk_new_free_slots _ _ _ Hnew) as Hfs1.
    destruct (heap_blk_new_shape _ _ _ _ _ _ Hsh Hnew)
      as (Hsh1 & Hlen1 & Hfr1 & Hu1 & _).
    assert (Hb1: ∀ j, j ∈ (l1 ++ c :: l2) ++ al → blk s1 j = blk s j).
    { intros j Hj. apply Hfr1. intros ->.
      destruct (sr_fresh _ _ _ _ Hsh1 k); [by left|done]. }
    rewrite (Hb1 c) by set_solver.
    destruct (Z.eqb_spec (wrap (skip + sz)) (size (blk s c))) as [Hw|Hw];
      cbn [negb andb fst snd].
    + right. split; [simpl; lia|]. eexists _, [k], []. split; [reflexivity|].
      apply (alloc_post_pre s s1); [done..|].
      apply (alloc_link_spec s1 l1 c l2 al sz skip [k] []); eauto.
      left. by rewrite Hb1 by set_solver.
    + destruct (heap_blk_new s1) as [[u|] s2] eqn:Hnew2; cbn [fst snd].
      * right. rewrite bool_decide_eq_false_2 by done.
        pose proof (heap_blk_new_free_slots _ _ _ Hnew2).
        split; [simpl; lia|]. eexists _, [k], [u]. split; [reflexivity|].
        destruct (heap_blk_new_shape _ _ _ _ _ _ Hsh1 Hnew2)
          as (Hsh2 & Hlen2 & Hfr2 & Hu2 & _).
        assert (Hb2: ∀ j, j ∈ (l1 ++ c :: l2) ++ al → blk s2 j = blk s j).
        { intros j Hj. rewrite Hfr2; [by apply Hb1|]. intros ->.
          destruct (sr_fresh _ _ _ _ Hsh2 u); [by left|done]. }
        apply (alloc_post_pre s s2); [congruence..|done|].
        apply (alloc_link_spec s2 l1 c l2 al sz skip [k] [u]); eauto.
        -- eapply shape_res_perm; [|exact Hsh2]. apply Permutation_swap.
        -- right. rewrite Hb2 by set_solver. eauto.
      * left. rewrite bool_decide_eq_true_2 by done.
        apply heap_blk_new_None in Hnew2 as [-> Hfs].
        split; [simpl; lia|]. by rewrite (heap_blk_release_new _ _ _ Hnew).
Qed.
End alloc_link.

(** ** The loops *)

Section scans.
Implicit Types (s : heap) (l : list nat) (p : option nat).

Lemma lists_length_free s fl al :
  lists s fl al → (length fl ≤ length (tm_blockpool s))%nat.
Proof.
  intros [Hf _ Hnd]. apply NoDup_app in Hnd as (Hnd & _).
  apply NoDup_bounded_length; [done|]. intros x Hx. by eapply chain_lt.
Qed.

Lemma lists_length_alloc s fl al :
  lists s fl al → (length al ≤ length (tm_blockpool s))%nat.
Proof.
  intros [_ Ha Hnd]. apply NoDup_app in Hnd as (_ & _ & Hnd).
  apply NoDup_bounded_length; [done|]. intros x Hx. by eapply chain_lt.
Qed.

(** The loop of [heap_blk_alloc] stops at the first block that passes the
    test of line 100 and runs the body there; it returns [NULL] without
    writing when no block passes. *)
Lemma heap_blk_alloc_scan_spec s ty sz alignment l prev0 p fuel :
  chain s p l None → (length l ≤ fuel)%nat →
  (Forall (λ x, alloc_fits ty sz alignment (blk s x) = false) l
   ∧ heap_blk_alloc_scan fuel ty sz alignment prev0 p s = Some (None, s))
  ∨ (∃ l1 c l2,
       l = l1 ++ c :: l2
       ∧ Forall (λ x, alloc_fits ty sz alignment (blk s x) = false) l1
       ∧ alloc_fits ty sz alignment (blk s c) = true
       ∧ heap_blk_alloc_scan fuel ty sz alignment prev0 p s
         = Some (heap_blk_alloc_at sz (last_or prev0 l1) c
                   (alloc_skip alignment (blk s c)) s)).
Proof.
  revert prev0 p fuel. induction l as [|x l IH]; intros prev0 p fuel Hc Hlen.
  - left. apply chain_nil in Hc as ->. split; [constructor|].
    by destruct fuel.
  - apply chain_cons in Hc as (-> & Hx & Hc).
    destruct (alloc_fits ty sz alignment (blk s x)) eqn:Hfit.
    + right. exists [], x, l. split_and!; [done|constructor|done|].
      unfold alloc_fits, alloc_skip in Hfit.
      destruct fuel; simpl; by rewrite Hfit.
    + destruct fuel as [|fuel]; [simpl in Hlen; lia|].
      cbn [heap_blk_alloc_scan]. cbv zeta.
      unfold alloc_fits, alloc_skip in Hfit. rewrite Hfit.
      destruct (IH (Some x) (next (blk s x)) fuel Hc) as
        [[Hall Heq]|(l1 & c & l2 & -> & Hall & Hfitc & Heq)];
        [simpl in Hlen; lia|..].
      * left. split; [by constructor|done].
      * right. exists (x :: l1), c, l2.
        split_and!; [done|by constructor|done|].
        by rewrite last_or_cons.
Qed.

(** The loop of [heap_blk_insert_free] stops in front of the first block
    whose base is not below the inserted one. *)
Lemma insert_free_scan_spec s bbase l prev0 p fuel :
  chain s p l None → (length l ≤ fuel)%nat →
  ∃ l1 l2,
    l = l1 ++ l2
    ∧ insert_free_scan fuel s bbase prev0 p
      = Some (last_or prev0 l1, entry l2 None)
    ∧ Forall (λ x, base (blk s x) < bbase) l1
    ∧ (∀ c, head l2 = Some c → bbase ≤ base (blk s c)).
Proof.
  revert prev0 p fuel. induction l as [|x l IH]; intros prev0 p fuel Hc Hlen.
  - apply chain_nil in Hc as ->. exists [], [].
    split_and!; [done|by destruct fuel|constructor|done].
  - apply chain_cons in Hc as (-> & Hx & Hc).
    destruct (Z.ltb_spec (base (blk s x)) bbase) as [Hlt|Hge].
    + destruct fuel as [|fuel]; [simpl in Hlen; lia|].
      destruct (IH (Some x) (next (blk s x)) fuel Hc) as
        (l1 & l2 & -> & Heq & Hall & Hhd); [simpl in Hlen; lia|].
      exists (x :: l1), l2. split_and!; [done| |by constructor|done].
      cbn [insert_free_scan].
      rewrite (proj2 (Z.ltb_lt _ _) Hlt), last_or_cons. done.
    + exists [], (x :: l). split_and!; [done| |constructor|].
      * destruct fuel; cbn [insert_free_scan];
          by rewrite (proj2 (Z.ltb_ge _ _) Hge).
      * intros c [= <-]. done.
Qed.

(** The loop of [heap_blk_free] stops at the first block with the base
    asked for. *)
Lemma free_scan_spec s addr l prev0 p fuel :
  chain s p l None → (length l ≤ fuel)%nat →
  (Forall (λ x, base (blk s x) ≠ addr) l
   ∧ ∃ prev, free_scan fuel s addr prev0 p = Some (prev, None))
  ∨ (∃ l1 c l2,
       l = l1 ++ c :: l2
       ∧ Forall (λ x, base (blk s x) ≠ addr) l1
       ∧ base (blk s c) = addr
       ∧ free_scan fuel s addr prev0 p = Some (last_or prev0 l1, Some c)).
Proof.
  revert prev0 p fuel. induction l as [|x l IH]; intros prev0 p fuel Hc Hlen.
  - left. apply chain_nil in Hc as ->. split; [constructor|].
    exists prev0. by destruct fuel.
  - apply chain_cons in Hc as (-> & Hx & Hc).
    destruct (Z.eqb_spec (base (blk s x)) addr) as [Heq|Hne].
    + right. exists [], x, l. split_and!; [done|constructor|done|].
      destruct fuel; cbn [free_scan]; by rewrite (proj2 (Z.eqb_eq _ _) Heq).
    + destruct fuel as [|fuel]; [simpl in Hlen; lia|].
      cbn [free_scan]. rewrite (proj2 (Z.eqb_neq _ _) Hne).
      destruct (IH (Some x) (next (blk s x)) fuel Hc) as
        [[Hall Hscan]|(l1 & c & l2 & -> & Hall & Hbc & Hscan)];
        [simpl in Hlen; lia|..].
      * left. split; [by constructor|done].
      * right. exists (x :: l1), c, l2.
        split_and!; [done|by constructor|done|].
        by rewrite last_or_cons.
Qed.

(** What a call of [heap_blk_alloc] does in a well-formed heap. *)
Lemma heap_blk_alloc_spec s fl al ty sz alignment :
  shape s fl al → u32 sz →
  (Forall (λ x, alloc_fits ty sz alignment (blk s x) = false) fl
   ∧ heap_blk_alloc ty sz alignment s = Some (None, s))
  ∨ (∃ l1 c l2,
       fl = l1 ++ c :: l2
       ∧ Forall (λ x, alloc_fits ty sz alignment (blk s x) = false) l1
       ∧ alloc_fits ty sz alignment (blk s c) = true
       ∧ let skip := alloc_skip alignment (blk s c) in
         ((free_slots s < slots_needed sz skip (blk s c))%nat
          ∧ heap_blk_alloc ty sz alignment s = Some (None, s))
         ∨ ((slots_needed sz skip (blk s c) ≤ free_slots s)%nat
            ∧ ∃ s' ks us,
                heap_blk_alloc ty sz alignment s = Some (Some c, s')
                ∧ alloc_post s s' l1 c l2 al ks us sz skip)).
Proof.
  intros Hsh Hsz. unfold heap_blk_alloc.
  destruct (heap_blk_alloc_scan_spec s ty sz alignment fl None
              (tm_freelist s) (length (tm_blockpool s)))
    as [[Hall Heq]|(l1 & c & l2 & -> & Hall & Hfit & Heq)].
  - apply (ls_free _ _ _ (sh_lists _ _ _ Hsh)).
  - apply (lists_length_free _ _ _ (sh_lists _ _ _ Hsh)).
  - by left.
  - right. exists l1, c, l2. split_and!; [done..|]. cbv zeta.
    rewrite Heq, last_or_None.
    destruct (heap_blk_alloc_at_spec s l1 c l2 al sz
                (alloc_skip alignment (blk s c)) Hsh Hsz)
      as [[Hfs ->]|(Hfs & s' & ks & us & -> & Hpost)];
      [apply wrap_u32|by left|].
    right. split; [done|]. by exists s', ks, us.
Qed.
End scans.

(** ** The steps of [heap_blk_insert_free] *)

Section insert_steps.
Implicit Types (s : heap) (l : list nat).

(** Taking [x] out of the free list by redirecting the link that leads to
    it, as the allocation and both merges do. *)
Lemma unlink_free_lists s l1 x l2 al :
  lists s (l1 ++ x :: l2) al →
  lists (link_free (last l1) (next (blk s x)) s) (l1 ++ l2) al.
Proof.
  intros [Hf Ha Hnd].
  apply chain_split in Hf as [Hf1 Hf2].
  apply chain_cons in Hf2 as (_ & _ & Hf2).
  nodup_split Hnd.
  assert (Hlast: ∀ y, last l1 = Some y → y ∈ l1) by apply last_elem_of.
  split.
  - apply chain_app. exists (next (blk s x)). split.
    + by eapply link_free_chain.
    + apply link_free_frame; [|done]. intros y Hy%Hlast. set_solver.
  - rewrite link_free_alloclist.
    apply link_free_frame; [|done]. intros y Hy%Hlast. set_solver.
  - apply NoDup_app. split_and!; [|set_solver|done].
    apply NoDup_app. split_and!; [done|set_solver|done].
Qed.

Lemma heap_blk_mergeable_payload a b :
  heap_blk_mergeable (payload a) (payload b) = heap_blk_mergeable a b.
Proof. done. Qed.

(** *** Linking the block in *)

Lemma insert_free_link_lists s l1 l2 al b :
  lists s (l1 ++ l2) al →
  (b < length (tm_blockpool s))%nat → b ∉ (l1 ++ l2) ++ al →
  lists (insert_free_link b (last l1) (entry l2 None) s)
    (l1 ++ b :: l2) al.
Proof.
  intros [Hf Ha Hnd] Hb Hfresh.
  apply chain_split in Hf as [Hf1 Hf2].
  nodup_split Hnd.
  assert (Hlast: ∀ y, last l1 = Some y → y ∈ l1) by apply last_elem_of.
  unfold insert_free_link. cbv zeta.
  set (s1 := link_free (last l1) (Some b) s).
  split.
  - chain_head (tm_freelist s1).
    apply chain_app. exists (Some b). split.
    + apply chain_upd_frame; [set_solver|]. by eapply link_free_chain.
    + apply chain_cons.
      split_and!; [done|by subst s1; autorewrite with heap|].
      subst s1. blk_simpl.
      apply chain_upd_frame; [set_solver|].
      apply link_free_frame; [|done].
      intros y Hy%Hlast. set_solver.
  - chain_head (tm_alloclist s1). subst s1. rewrite link_free_alloclist.
    apply chain_upd_frame; [set_solver|].
    apply link_free_frame; [|done].
    intros y Hy%Hlast. set_solver.
  - apply NoDup_app. split_and!; [|set_solver|done].
    apply NoDup_app. split_and!; [done|set_solver|].
    apply NoDup_cons. split; [set_solver|done].
Qed.

Lemma insert_free_link_effect s prev curr b :
  let s' := insert_free_link b prev curr s in
  length (tm_blockpool s') = length (tm_blockpool s)
  ∧ (∀ j, payload (blk s' j) = payload (blk s j))
  ∧ tm_used s' = tm_used s
  ∧ tm_alloclist s' = tm_alloclist s.
Proof.
  unfold insert_free_link. cbv zeta. split_and!.
  - by autorewrite with heap.
  - intros j. rewrite blk_upd.
    case_decide as Hd; [destruct Hd as [<- _]|];
      by rewrite <-(link_free_payload prev (Some b) s).
  - by autorewrite with heap.
  - by autorewrite with heap.
Qed.

Lemma insert_free_link_shape s l1 l2 al b :
  shape_res s (l1 ++ l2) al [b] →
  u32 (base (blk s b)) → u32 (offset (blk s b)) → u32 (size (blk s b)) →
  shape_res (insert_free_link b (last l1) (entry l2 None) s)
    (l1 ++ b :: l2) al [].
Proof.
  intros [Hl Hnd Hf Hu Hr] Hbb Hbo Hbs.
  destruct (Hf b) as [Hb Hbn]; [set_solver|].
  assert (Hmem: ∀ i, i ∈ ((l1 ++ b :: l2) ++ al) ++ []
                     ↔ i ∈ ((l1 ++ l2) ++ al) ++ [b]) by set_solver.
  assert (Hold: ∀ i, i ∈ (l1 ++ b :: l2) ++ al → i ≠ b →
                     i ∈ (l1 ++ l2) ++ al) by set_solver.
  destruct (insert_free_link_effect s (last l1) (entry l2 None) b)
    as (Hlen & Efr & _).
  split.
  - by apply insert_free_link_lists.
  - constructor.
  - intros j Hj. by apply elem_of_nil in Hj.
  - intros i Hi. rewrite Hlen in Hi. rewrite Hmem.
    specialize (Efr i). apply payload_eq in Efr as (-> & _). by apply Hu.
  - intros i Hi.
    pose proof (Efr i) as Ei. apply payload_eq in Ei as (_ & -> & -> & ->).
    destruct (decide (i = b)) as [->|Hib]; [done|]. by apply Hr, Hold.
Qed.
End insert_steps.

Section merges.
Implicit Types (s : heap) (l : list nat).

Lemma merge_with_curr_eq s b c :
  merge_with_curr b (Some c) s
  = if heap_blk_mergeable (blk s b) (blk s c) then absorb b c s else s.
Proof. done. Qed.

Lemma merge_with_prev_eq s b p :
  merge_with_prev b (Some p) s
  = if heap_blk_mergeable (blk s p) (blk s b) then absorb p b s else s.
Proof. done. Qed.

Lemma absorb_lists s l1 y x l2 al :
  lists s (l1 ++ y :: x :: l2) al →
  lists (absorb y x s) (l1 ++ y :: l2) al.
Proof.
  intros Hl.
  assert (Hy: (y < length (tm_blockpool s))%nat).
  { eapply chain_lt; [apply (ls_free _ _ _ Hl)|set_solver]. }
  assert (Hxy: x ≠ y).
  { pose proof (ls_nodup _ _ _ Hl) as Hnd. nodup_split Hnd. set_solver. }
  assert (Hxn: x ∉ (l1 ++ y :: l2) ++ al).
  { pose proof (ls_nodup _ _ _ Hl) as Hnd. nodup_split Hnd. set_solver. }
  unfold absorb, heap_blk_release. cbv zeta.
  set (sa := upd y (set_size _) s).
  assert (Hla: lists sa ((l1 ++ [y]) ++ x :: l2) al).
  { rewrite <-app_assoc. eapply lists_payload; [| | | |exact Hl].
    - subst sa. by autorewrite with heap.
    - done.
    - done.
    - intros j _. subst sa. rewrite blk_upd.
      by case_decide as Hd; [destruct Hd as [<- _]|]. }
  apply unlink_free_lists in Hla. rewrite last_snoc in Hla.
  rewrite <-app_assoc in Hla. cbn [link_free app] in Hla.
  eapply lists_payload; [| | | |exact Hla].
  - by autorewrite with heap.
  - done.
  - done.
  - intros j Hj. autorewrite with heap. rewrite blk_upd_ne; [done|].
    intros ->. done.
Qed.

Lemma absorb_effect s y x :
  (y < length (tm_blockpool s))%nat → (x < length (tm_blockpool s))%nat →
  x ≠ y →
  let s' := absorb y x s in
  length (tm_blockpool s') = length (tm_blockpool s)
  ∧ payload (blk s' y)
    = set_size (wrap (size (blk s y) + size (blk s x))) (payload (blk s y))
  ∧ type (blk s' x) = -1
  ∧ (∀ j, j ≠ y → j ≠ x → blk s' j = blk s j)
  ∧ tm_used s' = tm_used s
  ∧ tm_alloclist s' = tm_alloclist s.
Proof.
  intros Hy Hx Hxy. unfold absorb, heap_blk_release. cbv zeta.
  split_and!.
  - by autorewrite with heap.
  - by blk_simpl.
  - by blk_simpl.
  - intros j Hjy Hjx. by blk_simpl.
  - by blk_simpl.
  - by blk_simpl.
Qed.

Lemma absorb_shape s l1 y x l2 al :
  shape_res s (l1 ++ y :: x :: l2) al [] →
  shape_res (absorb y x s) (l1 ++ y :: l2) al [].
Proof.
  intros [Hl Hnd Hf Hu Hr].
  assert (Hy: (y < length (tm_blockpool s))%nat).
  { eapply chain_lt; [apply (ls_free _ _ _ Hl)|set_solver]. }
  assert (Hx: (x < length (tm_blockpool s))%nat).
  { eapply chain_lt; [apply (ls_free _ _ _ Hl)|set_solver]. }
  assert (x ≠ y ∧ x ∉ (l1 ++ y :: l2) ++ al) as [Hxy Hxn].
  { pose proof (ls_nodup _ _ _ Hl) as Hnd'. nodup_split Hnd'. set_solver. }
  assert (Hyin: y ∈ (l1 ++ y :: x :: l2) ++ al) by set_solver.
  assert (Hyin': y ∈ ((l1 ++ y :: x :: l2) ++ al) ++ []) by set_solver.
  assert (Hyin2: y ∈ ((l1 ++ y :: l2) ++ al) ++ []) by set_solver.
  assert (Hxn': x ∉ ((l1 ++ y :: l2) ++ al) ++ []) by set_solver.
  assert (Hmem: ∀ i, i ≠ x → i ∈ ((l1 ++ y :: l2) ++ al) ++ []
                     ↔ i ∈ ((l1 ++ y :: x :: l2) ++ al) ++ []) by set_solver.
  assert (Hold: ∀ i, i ∈ (l1 ++ y :: l2) ++ al →
                     i ∈ (l1 ++ y :: x :: l2) ++ al) by set_solver.
  destruct (Hr y Hyin) as (Hyb & Hyo & Hys).
  pose proof (proj2 (Hu y Hy) Hyin') as Hyty.
  destruct (absorb_effect s y x) as (Hlen & Ey & Ex & Efr & _); [done..|].
  apply payload_fields in Ey as (Eyt & Eyb & Eyo & Eys).
  cbn [type base offset size set_size payload set_next] in Eyt, Eyb, Eyo, Eys.
  split.
  - by apply absorb_lists.
  - done.
  - intros j Hj. by apply elem_of_nil in Hj.
  - intros i Hi. rewrite Hlen in Hi.
    destruct (decide (i = y)) as [->|Hiy]; [|destruct (decide (i = x)) as [->|Hix]].
    + by rewrite Eyt.
    + rewrite Ex. split; [done|]. intros Hin. by apply Hxn' in Hin.
    + rewrite (Efr i Hiy Hix), Hmem by done. by apply Hu.
  - intros i Hi.
    destruct (decide (i = y)) as [->|Hiy].
    + rewrite Eyb, Eyo, Eys. auto using wrap_u32.
    + assert (Hix: i ≠ x) by (intros ->; done).
      rewrite (Efr i Hiy Hix). by apply Hr, Hold.
Qed.
End merges.

(** ** [heap_blk_insert_free] and [heap_blk_free] on well-formed heaps *)

Section insert_free.
Implicit Types (s : heap) (l : list nat).

Lemma alloc_untouched_refl s al : alloc_untouched s s al.
Proof. by split_and!. Qed.

Lemma alloc_untouched_trans s1 s2 s3 al :
  alloc_untouched s1 s2 al → alloc_untouched s2 s3 al →
  alloc_untouched s1 s3 al.
Proof.
  intros (? & ? & ? & H12) (? & ? & ? & H23).
  split_and!; [congruence..|]. intros j Hj. rewrite H23, H12; done.
Qed.

Lemma absorb_untouched s l1 y x l2 al :
  shape_res s (l1 ++ y :: x :: l2) al [] →
  alloc_untouched s (absorb y x s) al.
Proof.
  intros Hsh. pose proof (sr_lists _ _ _ _ Hsh) as Hl.
  assert (Hy: (y < length (tm_blockpool s))%nat).
  { eapply chain_lt; [apply (ls_free _ _ _ Hl)|set_solver]. }
  assert (Hx: (x < length (tm_blockpool s))%nat).
  { eapply chain_lt; [apply (ls_free _ _ _ Hl)|set_solver]. }
  assert (x ≠ y ∧ ∀ j, j ∈ al → j ≠ y ∧ j ≠ x) as [Hxy Hal].
  { pose proof (ls_nodup _ _ _ Hl) as Hnd. nodup_split Hnd. set_solver. }
  destruct (absorb_effect s y x) as (Hlen & _ & _ & Efr & Eu & Ea); [done..|].
  split_and!; [done..|]. intros j Hj. destruct (Hal j Hj).
  by rewrite Efr.
Qed.

Lemma merge_with_curr_shape s l1 b l2 al :
  shape_res s (l1 ++ b :: l2) al [] →
  ∃ l2', shape_res (merge_with_curr b (entry l2 None) s)
           (l1 ++ b :: l2') al []
         ∧ alloc_untouched s (merge_with_curr b (entry l2 None) s) al.
Proof.
  intros Hsh. destruct l2 as [|c l2]; cbn [entry].
  { exists []. split; [done|apply alloc_untouched_refl]. }
  rewrite merge_with_curr_eq.
  destruct (heap_blk_mergeable _ _).
  - exists l2. split; [by apply absorb_shape|by eapply absorb_untouched].
  - exists (c :: l2). split; [done|apply alloc_untouched_refl].
Qed.

Lemma merge_with_prev_shape s l1 b l2 al :
  shape_res s (l1 ++ b :: l2) al [] →
  ∃ fl', shape_res (merge_with_prev b (last l1) s) fl' al []
         ∧ alloc_untouched s (merge_with_prev b (last l1) s) al.
Proof.
  intros Hsh. destruct (decide (l1 = [])) as [->|Hne].
  { exists (b :: l2). split; [done|apply alloc_untouched_refl]. }
  destruct (exists_last Hne) as [l1' [p ->]]. rewrite last_snoc.
  rewrite merge_with_prev_eq. rewrite <-app_assoc in Hsh. cbn [app] in Hsh.
  destruct (heap_blk_mergeable _ _).
  - exists (l1' ++ p :: l2).
    split; [by apply absorb_shape|by eapply absorb_untouched].
  - exists (l1' ++ p :: b :: l2). split; [done|apply alloc_untouched_refl].
Qed.

(** Inserting a block that is in use but on no list yields a well-formed
    heap again, whatever merges happen; the loop always ends. *)
Lemma heap_blk_insert_free_spec s fl al b :
  shape_res s fl al [b] →
  u32 (base (blk s b)) → u32 (offset (blk s b)) → u32 (size (blk s b)) →
  ∃ s' fl',
    heap_blk_insert_free b s = Some s'
    ∧ shape s' fl' al ∧ alloc_untouched s s' al.
Proof.
  intros Hsh Hbb Hbo Hbs. unfold heap_blk_insert_free.
  pose proof (sr_lists _ _ _ _ Hsh) as Hl.
  destruct (insert_free_scan_spec s (base (blk s b)) fl None
              (tm_freelist s) (length (tm_blockpool s)))
    as (l1 & l2 & -> & -> & _).
  { apply (ls_free _ _ _ Hl). }
  { apply (lists_length_free _ _ _ Hl). }
  rewrite last_or_None. cbv zeta.
  pose proof (insert_free_link_shape s l1 l2 al b Hsh Hbb Hbo Hbs) as Hsh1.
  assert (Hu1: alloc_untouched s
                 (insert_free_link b (last l1) (entry l2 None) s) al).
  { destruct (insert_free_link_effect s (last l1) (entry l2 None) b)
      as (? & Efr & ? & ?). split_and!; [done..|]. intros j _. apply Efr. }
  set (s1 := insert_free_link b (last l1) (entry l2 None) s) in *.
  destruct (merge_with_curr_shape s1 l1 b l2 al Hsh1) as (l2' & Hsh2 & Hu2).
  set (s2 := merge_with_curr b (entry l2 None) s1) in *.
  destruct (merge_with_prev_shape s2 l1 b l2' al Hsh2) as (fl' & Hsh3 & Hu3).
  eexists _, fl'. split; [done|]. split; [by apply shape_res_nil|].
  eauto using alloc_untouched_trans.
Qed.
End insert_free.

Section free.
Implicit Types (s : heap) (l : list nat).

Lemma unlink_alloc_lists s fl a1 x a2 :
  lists s fl (a1 ++ x :: a2) →
  lists (link_alloc (last a1) (next (blk s x)) s) fl (a1 ++ a2).
Proof.
  intros [Hf Ha Hnd].
  apply chain_split in Ha as [Ha1 Ha2].
  apply chain_cons in Ha2 as (_ & _ & Ha2).
  nodup_split Hnd.
  assert (Hlast: ∀ y, last a1 = Some y → y ∈ a1) by apply last_elem_of.
  split.
  - rewrite link_alloc_freelist.
    apply link_alloc_frame; [|done]. intros y Hy%Hlast. set_solver.
  - apply chain_app. exists (next (blk s x)). split.
    + by eapply link_alloc_chain.
    + apply link_alloc_frame; [|done]. intros y Hy%Hlast. set_solver.
  - apply NoDup_app. split_and!; [done|set_solver|].
    apply NoDup_app. split_and!; [done|set_solver|done].
Qed.

(** Lines 192-199 of [heap_blk_free]: the block found leaves the allocated
    list and the usage counter drops by its size. *)
Lemma free_unlink_shape s fl a1 c a2 :
  shape s fl (a1 ++ c :: a2) →
  let s1 := link_alloc (last a1) (next (blk s c)) s in
  let s2 := upd c (set_next None) s1 in
  let s3 := set_used (wrap (tm_used s2 - size (blk s2 c))) s2 in
  shape_res s3 fl (a1 ++ a2) [c]
  ∧ length (tm_blockpool s3) = length (tm_blockpool s)
  ∧ (∀ j, payload (blk s3 j) = payload (blk s j))
  ∧ tm_used s3 = wrap (tm_used s - size (blk s c)).
Proof.
  intros [Hl Hu Hr]. cbv zeta.
  assert (Hc: (c < length (tm_blockpool s))%nat).
  { eapply chain_lt; [apply (ls_alloc _ _ _ Hl)|set_solver]. }
  assert (Hcn: c ∉ fl ++ a1 ++ a2).
  { pose proof (ls_nodup _ _ _ Hl) as Hnd. nodup_split Hnd. set_solver. }
  assert (Hpc: last a1 ≠ Some c) by (apply last_not_elem; set_solver).
  assert (Hmem: ∀ i, i ∈ (fl ++ a1 ++ a2) ++ [c]
                     ↔ i ∈ fl ++ a1 ++ c :: a2) by set_solver.
  assert (Hold: ∀ i, i ∈ fl ++ a1 ++ a2 → i ∈ fl ++ a1 ++ c :: a2)
    by set_solver.
  assert (Hpay: ∀ j,
    payload (blk (set_used (wrap
               (tm_used (upd c (set_next None)
                  (link_alloc (last a1) (next (blk s c)) s))
                - size (blk (upd c (set_next None)
                  (link_alloc (last a1) (next (blk s c)) s)) c)))
             (upd c (set_next None)
                (link_alloc (last a1) (next (blk s c)) s))) j)
    = payload (blk s j)).
  { intros j. autorewrite with heap. rewrite blk_upd.
    case_decide as Hd; [destruct Hd as [<- _]|];
      by rewrite <-(link_alloc_payload (last a1) (next (blk s c)) s). }
  split_and!.
  - split.
    + apply unlink_alloc_lists in Hl.
      eapply lists_payload; [| | | |exact Hl].
      * by autorewrite with heap.
      * done.
      * done.
      * intros j Hj. autorewrite with heap. rewrite blk_upd_ne; [done|].
        intros ->. done.
    + apply NoDup_singleton.
    + intros k ->%list_elem_of_singleton. split; [|done].
      by autorewrite with heap.
    + intros i Hi. autorewrite with heap in Hi. rewrite Hmem.
      specialize (Hpay i). apply payload_eq in Hpay as (-> & _).
      by apply Hu.
    + intros i Hi.
      specialize (Hpay i). apply payload_eq in Hpay as (_ & -> & -> & ->).
      by apply Hr, Hold.
  - by autorewrite with heap.
  - done.
  - by blk_simpl.
Qed.

(** What a call of [heap_blk_free] does in a well-formed heap. *)
Lemma heap_blk_free_spec s fl al addr :
  shape s fl al →
  (Forall (λ x, base (blk s x) ≠ addr) al
   ∧ heap_blk_free addr s = Some s)
  ∨ (∃ a1 c a2 s' fl',
       al = a1 ++ c :: a2
       ∧ Forall (λ x, base (blk s x) ≠ addr) a1
       ∧ base (blk s c) = addr
       ∧ heap_blk_free addr s = Some s'
       ∧ shape s' fl' (a1 ++ a2)
       ∧ length (tm_blockpool s') = length (tm_blockpool s)
       ∧ tm_used s' = wrap (tm_used s - size (blk s c))
       ∧ ∀ j, j ∈ a1 ++ a2 → payload (blk s' j) = payload (blk s j)).
Proof.
  intros Hsh. unfold heap_blk_free.
  pose proof (sh_lists _ _ _ Hsh) as Hl.
  destruct (free_scan_spec s addr al None (tm_alloclist s)
              (length (tm_blockpool s)))
    as [[Hall [prev ->]]|(a1 & c & a2 & -> & Hall & Hbc & ->)].
  - apply (ls_alloc _ _ _ Hl).
  - apply (lists_length_alloc _ _ _ Hl).
  - by left.
  - right. rewrite last_or_None. cbv zeta.
    destruct (free_unlink_shape s fl a1 c a2 Hsh)
      as (Hsh3 & Hlen3 & Hpay3 & Hused3).
    set (s3 := set_used _ _) in *.
    assert (Hcr: u32 (base (blk s3 c)) ∧ u32 (offset (blk s3 c))
                 ∧ u32 (size (blk s3 c))).
    { pose proof (Hpay3 c) as Hp.
      apply payload_eq in Hp as (_ & -> & -> & ->).
      apply (sh_range _ _ _ Hsh). set_solver. }
    destruct Hcr as (Hcb & Hco & Hcs).
    destruct (heap_blk_insert_free_spec s3 fl (a1 ++ a2) c Hsh3 Hcb Hco Hcs)
      as (s' & fl' & Hins & Hsh' & Hlen' & Hused' & _ & Hpay').
    exists a1, c, a2, s', fl'. split_and!; [done..|congruence|congruence|].
    intros j Hj. by rewrite Hpay', Hpay3.
Qed.
End free.

(** ** The region variables are only written by [texmem_init] *)

Section region.
Implicit Types (s : heap).

Lemma region_eq s s' :
  region s' = region s →
  tm_main s' = tm_main s ∧ tm_main_uid s' = tm_main_uid s
  ∧ tm_main_size s' = tm_main_size s ∧ tm_main_type s' = tm_main_type s
  ∧ tm_sub_type s' = tm_sub_type s.
Proof. unfold region. by intros [= -> -> -> -> ->]. Qed.

Lemma region_upd s i f : region (upd i f s) = region s.
Proof. done. Qed.
Lemma region_set_used s u : region (set_used u s) = region s.
Proof. done. Qed.
Lemma region_set_blocknum s n : region (set_blocknum n s) = region s.
Proof. done. Qed.
Lemma region_set_alloclist s p : region (set_alloclist p s) = region s.
Proof. done. Qed.
Lemma region_set_freelist s p : region (set_freelist p s) = region s.
Proof. done. Qed.
Lemma region_link_free s prev x : region (link_free prev x s) = region s.
Proof. by destruct prev. Qed.
Lemma region_link_alloc s prev x : region (link_alloc prev x s) = region s.
Proof. by destruct prev. Qed.
End region.

Create Rewrite HintDb region.
#[global] Hint Rewrite region_upd region_set_used region_set_blocknum
  region_set_alloclist region_set_freelist region_link_free
  region_link_alloc : region.

Section region_ops.
Implicit Types (s : heap).

Lemma region_heap_blk_new s r s' :
  heap_blk_new s = (r, s') → region s' = region s.
Proof.
  unfold heap_blk_new. destruct (list_find _ _) as [[i b]|];
    by intros [= <- <-].
Qed.

Lemma region_heap_blk_release s i : region (heap_blk_release i s) = region s.
Proof. done. Qed.

Lemma region_absorb s y x : region (absorb y x s) = region s.
Proof. done. Qed.

Lemma region_insert_free s b s' :
  heap_blk_insert_free b s = Some s' → region s' = region s.
Proof.
  unfold heap_blk_insert_free.
  destruct (insert_free_scan _ _ _ _ _) as [[prev curr]|]; [|done].
  intros [= <-]. unfold merge_with_prev, merge_with_curr.
  set (s1 := insert_free_link b prev curr s).
  assert (H1: region s1 = region s).
  { subst s1. unfold insert_free_link. cbv zeta.
    by autorewrite with region. }
  set (s2 := match curr with Some c => _ | None => _ end).
  assert (H2: region s2 = region s1).
  { subst s2. destruct curr as [c|]; [|done].
    by destruct (heap_blk_mergeable _ _). }
  destruct prev as [p|]; [|congruence].
  destruct (heap_blk_mergeable _ _); [|congruence].
  change (region (absorb p b s2) = region s). rewrite region_absorb.
  congruence.
Qed.

Lemma region_alloc_link sz prev c skip kb ub s :
  region (alloc_link sz prev c skip kb ub s) = region s.
Proof.
  unfold alloc_link. cbv zeta.
  set (r := if skip =? 0 then _ else _).
  assert (Hr: region r.2 = region s).
  { subst r. destruct (skip =? 0); [done|]. destruct kb; [|done].
    cbn [snd]. unfold alloc_carve_skip. cbv zeta.
    by autorewrite with region. }
  set (s2 := if sz =? _ then _ else _).
  assert (H2: region s2 = region r.2).
  { subst s2. destruct (sz =? _); [done|]. destruct ub; [|done].
    unfold alloc_carve_unused. cbv zeta. by autorewrite with region. }
  unfold alloc_take. cbv zeta. autorewrite with region. congruence.
Qed.

Lemma region_heap_blk_alloc s ty sz alignment r s' :
  heap_blk_alloc ty sz alignment s = Some (r, s') → region s' = region s.
Proof.
  unfold heap_blk_alloc. generalize (length (tm_blockpool s)).
  generalize (@None nat) at 1. generalize (tm_freelist s).
  intros curr prev fuel. revert curr prev.
  induction fuel as [|fuel IH]; intros curr prev; cbn [heap_blk_alloc_scan];
    (destruct curr as [c|]; [|by intros [= <- <-]]); cbv zeta.
  all: destruct (_ && _); [|by eauto].
  all: intros [= Hat]; revert Hat; unfold heap_blk_alloc_at; cbv zeta.
  all: set (r1 := if _ =? 0 then _ else _).
  all: assert (H1: region r1.2 = region s)
         by (subst r1; destruct (_ =? 0); [done|];
             destruct (heap_blk_new s) eqn:E;
             by apply region_heap_blk_new in E).
  all: destruct (_ && bool_decide _); [intros [= <- <-]; done|].
  all: set (r2 := if negb _ then _ else _).
  all: assert (H2: region r2.2 = region s)
         by (subst r2; destruct (negb _); [|done];
             destruct (heap_blk_new r1.2) eqn:E;
             apply region_heap_blk_new in E; cbn [snd]; congruence).
  all: destruct (_ && bool_decide _).
  all: intros [= <- <-].
  all: try (destruct r1.1; rewrite ?region_heap_blk_release; done).
  all: by rewrite region_alloc_link.
Qed.

Lemma region_heap_blk_free s addr s' :
  heap_blk_free addr s = Some s' → region s' = region s.
Proof.
  unfold heap_blk_free.
  destruct (free_scan _ _ _ _ _) as [[prev [c|]]|]; [|by intros [= <-]|done].
  cbv zeta. intros ->%region_insert_free. by autorewrite with region.
Qed.

Lemma region_texmem_alloc s sz addr s' :
  texmem_alloc sz s = Some (addr, s') → region s' = region s.
Proof.
  unfold texmem_alloc, heap_alloc. destruct (sz =? 0); [by intros [= <- <-]|].
  destruct (heap_blk_alloc _ _ _ _) as [[[b|] s1]|] eqn:E; [| |done];
    intros [= <- <-]; by apply region_heap_blk_alloc in E.
Qed.

Lemma region_texmem_free s ptr s' :
  texmem_free ptr s = Some s' → region s' = region s.
Proof.
  unfold texmem_free, heap_free. destruct (ptr =? 0); [by intros [= <-]|].
  apply region_heap_blk_free.
Qed.
End region_ops.

(** ** Initialisation *)

Section init.
Implicit Types (s : heap).

Lemma mark_free_spec s n :
  let s' := foldl (λ s i, upd i (set_type (-1)) s) s (seq 0 n) in
  length (tm_blockpool s') = length (tm_blockpool s)
  ∧ tm_alloclist s' = tm_alloclist s ∧ tm_freelist s' = tm_freelist s
  ∧ tm_used s' = tm_used s ∧ tm_blocknum s' = tm_blocknum s
  ∧ region s' = region s
  ∧ ∀ i, blk s' i
         = if decide ((i < n)%nat ∧ (i < length (tm_blockpool s))%nat)
           then set_type (-1) (blk s i) else blk s i.
Proof.
  induction n as [|n IH]; cbv zeta.
  { by split_and!. }
  rewrite seq_S, foldl_app. cbn [foldl plus].
  destruct IH as (Hlen & Ha & Hf & Hu & Hb & Hr & Hblk).
  set (s' := foldl _ s (seq 0 n)) in *.
  split_and!; autorewrite with heap region; try done.
  intros i. rewrite blk_upd, Hlen.
  destruct (decide (n = i ∧ (n < length (tm_blockpool s))%nat))
    as [[<- Hn]|Hni].
  - rewrite Hblk. rewrite decide_False by lia. by rewrite decide_True by lia.
  - rewrite Hblk. destruct (decide ((i < n)%nat ∧ _)) as [Hd|Hd].
    + by rewrite decide_True by lia.
    + by rewrite decide_False by lia.
Qed.

(** [heap_init] empties both lists, clears the counter and marks every
    slot of the pool unused. *)
Lemma heap_init_spec s :
  length (tm_blockpool s) = TM_MAX_BLOCKS →
  let s' := heap_init s in
  length (tm_blockpool s') = TM_MAX_BLOCKS
  ∧ tm_alloclist s' = None ∧ tm_freelist s' = None ∧ tm_used s' = 0
  ∧ tm_blocknum s' = tm_blocknum s
  ∧ region s' = region s
  ∧ ∀ i, (i < TM_MAX_BLOCKS)%nat → blk s' i = set_type (-1) (blk s i).
Proof.
  intros Hlen. unfold heap_init. cbv zeta.
  set (s0 := set_used 0 (set_freelist None (set_alloclist None s))).
  destruct (mark_free_spec s0 TM_MAX_BLOCKS)
    as (Hl & Ha & Hf & Hu & Hb & Hr & Hblk).
  split_and!; [by rewrite Hl|done..|].
  intros i Hi. rewrite Hblk. subst s0. autorewrite with heap.
  case_decide; [done|lia].
Qed.

Lemma heap_init_shape s :
  length (tm_blockpool s) = TM_MAX_BLOCKS → shape (heap_init s) [] [].
Proof.
  intros Hlen.
  destruct (heap_init_spec s Hlen) as (Hl & Ha & Hf & _ & _ & _ & Hblk).
  generalize dependent (heap_init s). intros s' Hl Ha Hf Hblk.
  split.
  - split; [by rewrite Hf|by rewrite Ha|constructor].
  - intros i Hi. rewrite Hl in Hi. rewrite Hblk by done.
    split; [intros Hne; by destruct Hne|]. by intros ?%elem_of_nil.
  - by intros i ?%elem_of_nil.
Qed.

Lemma free_slots_elem s i :
  (i < length (tm_blockpool s))%nat → type (blk s i) = -1 →
  free_slots s ≠ 0%nat.
Proof.
  intros [b Hb]%lookup_lt_is_Some_2 Hty. unfold free_slots.
  unfold blk in Hty. rewrite (list_lookup_total_correct _ _ _ Hb) in Hty.
  assert (Hin: b ∈ filter (λ b, type b = -1) (tm_blockpool s)).
  { apply list_elem_of_filter. split; [done|].
    by eapply list_elem_of_lookup_2. }
  intros Hz. apply nil_length_inv in Hz. rewrite Hz in Hin.
  by apply elem_of_nil in Hin.
Qed.

(** [heap_extend] registers a region as one more free block; it needs an
    unused descriptor. *)
Lemma heap_extend_spec s fl al ty bs sz :
  shape s fl al → ty ≠ -1 → u32 bs → u32 sz → free_slots s ≠ 0%nat →
  ∃ s' fl',
    heap_extend ty bs sz s = Some s'
    ∧ shape s' fl' al ∧ alloc_untouched s s' al
    ∧ region s' = region s.
Proof.
  intros Hsh%shape_res_nil Hty Hbs Hsz Hfs. unfold heap_extend.
  destruct (free_slots_pos s Hfs) as (b & s1 & Hnew). rewrite Hnew.
  destruct (heap_blk_new_shape _ _ _ _ _ _ Hsh Hnew)
    as (Hsh1 & Hlen1 & Hfr1 & Hu1 & Ha1).
  pose proof (region_heap_blk_new _ _ _ Hnew) as Hr1.
  destruct (sr_fresh _ _ _ _ Hsh1 b) as [Hb Hbn]; [by left|].
  cbv zeta.
  set (s2 := upd b (set_size sz) _).
  assert (Hb2: blk s2 b = mk_block None ty bs 0 sz).
  { subst s2. by blk_simpl. }
  assert (Hfr2: ∀ j, j ≠ b → blk s2 j = blk s1 j).
  { intros j Hj. subst s2. by blk_simpl. }
  assert (Hlen2: length (tm_blockpool s2) = length (tm_blockpool s1)).
  { subst s2. by autorewrite with heap. }
  assert (Hsh2: shape_res s2 fl al [b]).
  { destruct Hsh1 as [Hl Hnd Hf Hu Hr]. split.
    - eapply lists_payload; [exact Hlen2|done|done| |exact Hl].
      intros j Hj. rewrite Hfr2; [done|]. by intros ->.
    - done.
    - intros k Hk. rewrite Hlen2. by apply Hf.
    - intros i Hi. rewrite Hlen2 in Hi.
      destruct (decide (i = b)) as [->|Hib].
      + rewrite Hb2. cbn [type]. split; [set_solver|done].
      + rewrite Hfr2 by done. by apply Hu.
    - intros i Hi. rewrite Hfr2; [by apply Hr|]. by intros ->. }
  destruct (heap_blk_insert_free_spec s2 fl al b Hsh2)
    as (s' & fl' & Hins & Hsh' & Hun); [by rewrite Hb2..|].
  exists s', fl'. split_and!; [done|done| |].
  - eapply alloc_untouched_trans; [|exact Hun].
    split_and!; [congruence|by subst s2; autorewrite with heap
                |by subst s2; autorewrite with heap|].
    intros j Hj. rewrite Hfr2, Hfr1; [done| |].
    all: intros ->; apply Hbn; set_solver.
  - apply region_insert_free in Hins. rewrite Hins. subst s2.
    by autorewrite with region.
Qed.

(** [texmem_init] stops at the assertion when the mapping failed, and
    otherwise returns, with no value, a well-formed heap with nothing
    allocated. *)
Lemma texmem_init_spec maintype mainsize m uid s0 :
  length (tm_blockpool s0) = TM_MAX_BLOCKS → u32 m → u32 mainsize →
  (m = 0 ∧ texmem_init maintype mainsize (m, uid) s0 = InitAbort)
  ∨ (m ≠ 0 ∧ ∃ s fl,
       texmem_init maintype mainsize (m, uid) s0 = InitReturn None s
       ∧ shape s fl [] ∧ tm_used s = 0
       ∧ length (tm_blockpool s) = TM_MAX_BLOCKS
       ∧ region s
         = (m, uid, mainsize,
            (if maintype =? SCE_KERNEL_MEMBLOCK_TYPE_USER_CDRAM_RW
             then TM_TYPE_VRAM else TM_TYPE_RAM),
            (if maintype =? SCE_KERNEL_MEMBLOCK_TYPE_USER_CDRAM_RW
             then TM_TYPE_RAM else TM_TYPE_VRAM))).
Proof.
  intros Hlen Hm Hsz. unfold texmem_init. cbv zeta. cbn [fst snd].
  change (tm_main (set_region m uid s0)) with m.
  destruct (Z.eqb_spec m 0) as [->|Hm0]; [by left|]. right.
  split; [done|].
  set (ty := if maintype =? _ then TM_TYPE_VRAM else TM_TYPE_RAM).
  set (sty := if maintype =? _ then TM_TYPE_RAM else TM_TYPE_VRAM).
  set (s1 := set_types _ _ _ _).
  assert (Hlen1: length (tm_blockpool s1) = TM_MAX_BLOCKS) by exact Hlen.
  assert (Hreg1: region s1 = (m, uid, mainsize, ty, sty)) by reflexivity.
  destruct (heap_init_spec s1 Hlen1)
    as (Hl2 & Ha2 & Hf2 & Hu2 & _ & Hr2 & Hblk2).
  pose proof (heap_init_shape s1 Hlen1) as Hsh2.
  generalize dependent (heap_init s1). intros s2 Hl2 Ha2 Hf2 Hu2 Hr2 Hblk2 Hsh2.
  clearbody s1.
  destruct (region_eq _ _ Hr2) as (Em & _ & Es & Et & _).
  rewrite Hreg1 in Hr2.
  apply (f_equal (λ r, (r.1.1.1.1, r.1.1.2, r.1.2))) in Hreg1.
  cbn [fst snd region] in Hreg1. injection Hreg1 as Em1 Es1 Et1.
  rewrite Em, Es, Et, Em1, Es1, Et1.
  destruct (heap_extend_spec s2 [] [] ty m mainsize Hsh2)
    as (s & fl & -> & Hsh & (Hlen' & Hused' & _) & Hreg'); [|done|done| |].
  { subst ty. by destruct (maintype =? _). }
  { apply (free_slots_elem s2 0); [rewrite Hl2; unfold TM_MAX_BLOCKS; lia|].
    rewrite Hblk2; [done|unfold TM_MAX_BLOCKS; lia]. }
  exists s, fl. split_and!; [done|done|congruence|congruence|congruence].
Qed.
End init.

(** ** The public interface on reachable states *)

Section api.
Implicit Types (s : heap).

Lemma shape_walks s fl al :
  shape s fl al → free_blocks s = fl ∧ alloc_blocks s = al.
Proof.
  intros Hsh. pose proof (sh_lists _ _ _ Hsh) as Hl.
  split; apply chain_walk;
    eauto using ls_free, ls_alloc, lists_length_free, lists_length_alloc.
Qed.

Lemma max_alignment sz :
  (if sz <? TM_ALIGNMENT then TM_ALIGNMENT else sz) = Z.max sz TM_ALIGNMENT.
Proof. destruct (Z.ltb_spec sz TM_ALIGNMENT); lia. Qed.

Lemma u32_max_alignment sz : u32 sz → u32 (Z.max sz TM_ALIGNMENT).
Proof. unfold u32, TM_ALIGNMENT. lia. Qed.

(** The three ways a call of [texmem_alloc] with a non-zero size ends in a
    well-formed heap. *)
Lemma texmem_alloc_spec s fl al sz :
  shape s fl al → u32 sz → sz ≠ 0 →
  let ty := tm_main_type s in
  let sz' := Z.max sz TM_ALIGNMENT in
  (Forall (λ x, alloc_fits ty sz' TM_ALIGNMENT (blk s x) = false) fl
   ∧ texmem_alloc sz s = Some (0, s))
  ∨ (∃ l1 c l2,
       fl = l1 ++ c :: l2
       ∧ Forall (λ x, alloc_fits ty sz' TM_ALIGNMENT (blk s x) = false) l1
       ∧ alloc_fits ty sz' TM_ALIGNMENT (blk s c) = true
       ∧ let skip := alloc_skip TM_ALIGNMENT (blk s c) in
         ((free_slots s < slots_needed sz' skip (blk s c))%nat
          ∧ texmem_alloc sz s = Some (0, s))
         ∨ ((slots_needed sz' skip (blk s c) ≤ free_slots s)%nat
            ∧ ∃ s' ks us,
                texmem_alloc sz s = Some (base (blk s' c), s')
                ∧ alloc_post s s' l1 c l2 al ks us sz' skip)).
Proof.
  intros Hsh Hsz Hnz. cbv zeta. unfold texmem_alloc, heap_alloc.
  rewrite (proj2 (Z.eqb_neq sz 0) Hnz), max_alignment.
  destruct (heap_blk_alloc_spec s fl al (tm_main_type s)
              (Z.max sz TM_ALIGNMENT) TM_ALIGNMENT Hsh
              (u32_max_alignment sz Hsz))
    as [[Hall ->]|(l1 & c & l2 & -> & Hall & Hfit & Hres)]; [by left|].
  right. exists l1, c, l2. split_and!; [done..|]. cbv zeta in *.
  destruct Hres as [[Hfs ->]|(Hfs & s' & ks & us & -> & Hpost)];
    [by left|].
  right. split; [done|]. by exists s', ks, us.
Qed.

Lemma texmem_alloc_inv s sz addr s' :
  reach_inv s → u32 sz → texmem_alloc sz s = Some (addr, s') →
  reach_inv s'.
Proof.
  intros ((fl & al & Hsh) & Hlen & Hty) Hsz Halloc.
  pose proof (region_texmem_alloc _ _ _ _ Halloc) as Hreg.
  apply region_eq in Hreg as (_ & _ & _ & Hmt & _).
  destruct (decide (sz = 0)) as [->|Hnz].
  { injection Halloc as <- <-. split_and!; [by exists fl, al|done..]. }
  destruct (texmem_alloc_spec s fl al sz Hsh Hsz Hnz)
    as [[_ Heq]|(l1 & c & l2 & -> & _ & _ &
                 [[_ Heq]|(_ & s1 & ks & us & Heq & Hpost)])];
    rewrite Heq in Halloc; injection Halloc as <- <-.
  - split_and!; [by exists fl, al|done..].
  - split_and!; [by eexists _, al|done..].
  - destruct Hpost as (Hsh' & Hlen' & _).
    split_and!; [by eexists _, _|congruence|congruence].
Qed.

Lemma texmem_free_inv s ptr s' :
  reach_inv s → texmem_free ptr s = Some s' → reach_inv s'.
Proof.
  intros ((fl & al & Hsh) & Hlen & Hty) Hfree.
  pose proof (region_texmem_free _ _ _ Hfree) as Hreg.
  apply region_eq in Hreg as (_ & _ & _ & Hmt & _).
  unfold texmem_free, heap_free in Hfree.
  destruct (ptr =? 0).
  { injection Hfree as <-. split_and!; [by exists fl, al|done..]. }
  destruct (heap_blk_free_spec s fl al ptr Hsh)
    as [[_ Heq]|(a1 & c & a2 & s1 & fl' & -> & _ & _ & Heq & Hsh' & Hlen'
                 & _)];
    rewrite Heq in Hfree; injection Hfree as <-.
  - split_and!; [by exists fl, al|done..].
  - split_and!; [by eexists _, _|congruence|congruence].
Qed.

Lemma reachable_inv s : reachable s → reach_inv s.
Proof.
  induction 1 as [s0 maintype mainsize m uid ret s Hlen Hm Hsz Hinit
                 |s sz addr s' _ IH Hsz Halloc
                 |s ptr s' _ IH Hfree].
  - destruct (texmem_init_spec maintype mainsize m uid s0 Hlen Hm Hsz)
      as [[_ Heq]|(_ & s1 & fl & Heq & Hsh & _ & Hlen1 & Hreg)];
      rewrite Heq in Hinit; [done|]. injection Hinit as _ <-.
    split_and!; [by exists fl, []|done|].
    apply (f_equal (λ r, r.1.2)) in Hreg. cbn [fst snd region] in Hreg.
    rewrite Hreg. destruct (maintype =? _); auto.
  - by eapply texmem_alloc_inv.
  - by eapply texmem_free_inv.
Qed.

Lemma reachable_shape s :
  reachable s → shape s (free_blocks s) (alloc_blocks s).
Proof.
  intros ((fl & al & Hsh) & _)%reachable_inv.
  by destruct (shape_walks _ _ _ Hsh) as [-> ->].
Qed.

(** Running a list of calls from a reachable state stays reachable. *)
Lemma run_reachable cs s s' :
  reachable s → forallb call_ok cs = true → run cs s = Some s' →
  reachable s'.
Proof.
  intros Hr Hcs. revert s Hr.
  induction cs as [|c cs IH]; intros s Hr; [by intros [= <-]|].
  cbn [forallb] in Hcs. apply andb_prop in Hcs as [Hc Hcs].
  cbn [run]. destruct (do_call c s) as [s1|] eqn:Hcall; [|done].
  apply IH; [done|]. destruct c as [sz|ptr]; cbn [do_call] in Hcall.
  - destruct (texmem_alloc sz s) as [[addr s2]|] eqn:Ha; [|done].
    injection Hcall as <-. eapply reach_alloc; [done| |done].
    cbn [call_ok] in Hc. unfold u32. lia.
  - by eapply reach_free.
Qed.

Lemma run_from_reachable cs s :
  reachable s → forallb call_ok cs = true → is_Some (run cs s) →
  reachable (run_from s cs).
Proof.
  intros Hr Hcs [s' Hs']. unfold run_from. rewrite Hs'.
  by eapply run_reachable.
Qed.

Lemma init_state_reachable maintype mainsize m uid s :
  u32 m → u32 mainsize →
  texmem_init maintype mainsize (m, uid) tm_static = InitReturn None s →
  reachable (init_state maintype mainsize m uid).
Proof.
  intros Hm Hsz Hinit. unfold init_state. rewrite Hinit.
  eapply (reach_init tm_static); [|exact Hm|exact Hsz|exact Hinit].
  apply length_replicate.
Qed.
End api.

(** ** The scenarios are reachable *)

Section scenarios.
Lemma region_1k_reachable : reachable region_1k.
Proof.
  apply (init_state_reachable _ _ _ _ region_1k);
    [unfold u32; lia..|]. vm_compute. reflexivity.
Qed.

Lemma after_alloc_100_reachable : reachable after_alloc_100.
Proof.
  apply run_from_reachable; [apply region_1k_reachable|done|].
  vm_compute. eauto.
Qed.

Lemma after_overflow_reachable : reachable after_overflow.
Proof.
  apply run_from_reachable; [apply region_1k_reachable|done|].
  vm_compute. eauto.
Qed.

Lemma after_overflow_freed_reachable : reachable after_overflow_freed.
Proof.
  apply run_from_reachable; [apply region_1k_reachable|done|].
  vm_compute. eauto.
Qed.
End scenarios.

(** * The claims of the specification *)

Section arithmetic.
Lemma wrap_wrap x : wrap (wrap x) = wrap x.
Proof. unfold wrap. apply Z.mod_mod. lia. Qed.

(** Shifting a base by its padding lands on the rounded base. *)
Lemma base_plus_skip alignment b :
  wrap (base b + alloc_skip alignment b) = ALIGN (base b) alignment.
Proof.
  unfold alloc_skip, ALIGN, wrap.
  rewrite Zplus_mod_idemp_r.
  set (x := ((base b + (alignment - 1)) / alignment * alignment) mod 2 ^ 32).
  replace (base b + (x - base b)) with x by lia.
  subst x. apply Z.mod_mod. lia.
Qed.

Lemma ALIGN_multiple x a :
  0 < a → (a | 2 ^ 32) → ALIGN x a mod a = 0.
Proof.
  intros Ha Hdiv. unfold ALIGN, wrap.
  rewrite Z.mod_mod_divide by done.
  apply Z_mod_mult.
Qed.
End arithmetic.

Section claims.
Implicit Types (s : heap).

(** The first block of [fl] that passes the test is where any split of
    [fl] at a passing block with only failing blocks before it cuts. *)
Lemma first_fit_unique (P : nat → bool) (fl l1 l2 : list nat) (k c c' : nat) :
  list_find (λ i, P i = true) fl = Some (k, c) →
  fl = l1 ++ c' :: l2 → Forall (λ x, P x = false) l1 → P c' = true →
  c' = c ∧ k = length l1.
Proof.
  intros (Hk & Hc & Hbefore)%list_find_Some -> Hall Hc'.
  destruct (Nat.lt_trichotomy k (length l1)) as [Hlt|[->|Hgt]].
  - rewrite lookup_app_l in Hk by done.
    apply list_elem_of_lookup_2 in Hk.
    rewrite Forall_forall in Hall. specialize (Hall c Hk). congruence.
  - rewrite list_lookup_middle in Hk by done. split; congruence.
  - destruct (Hbefore (length l1) c'); [|done|done].
    by rewrite list_lookup_middle.
Qed.

(** In any state, the loop of [heap_blk_alloc] runs the body at the first
    block of the walk that passes the test. *)
Lemma heap_blk_alloc_scan_first_fit s ty sz alignment fuel prev p k c :
  list_find (λ i, alloc_fits ty sz alignment (blk s i) = true)
    (walk fuel s p) = Some (k, c) →
  ∃ prev',
    heap_blk_alloc_scan fuel ty sz alignment prev p s
    = Some (heap_blk_alloc_at sz prev' c
              (alloc_skip alignment (blk s c)) s).
Proof.
  revert prev p k. induction fuel as [|fuel IH]; intros prev p k.
  { by destruct p. }
  destruct p as [x|]; [|done]. cbn [walk heap_blk_alloc_scan]. cbv zeta.
  change (_ && _) with (alloc_fits ty sz alignment (blk s x)).
  cbn [list_find].
  destruct (alloc_fits ty sz alignment (blk s x)) eqn:Hfit.
  - rewrite decide_True by done. intros [= <- <-]. by exists prev.
  - rewrite decide_False by congruence.
    destruct (list_find _ (walk fuel s (next (blk s x))))
      as [[k' c']|] eqn:Hfind; [|done].
    cbn. intros [= <- <-]. by eapply IH.
Qed.

Lemma heap_blk_new_size s k s' c :
  heap_blk_new s = (Some k, s') → size (blk s' c) = size (blk s c).
Proof.
  intros (_ & _ & ->)%heap_blk_new_Some. autorewrite with heap.
  rewrite blk_upd. by case_decide as Hd; [destruct Hd as [<- _]|].
Qed.

(** In any state, the body fails without a trace when the pool has fewer
    unused descriptors than the split needs. *)
Lemma heap_blk_alloc_at_fails s sz prev c skip :
  (free_slots s < slots_needed sz skip (blk s c))%nat →
  heap_blk_alloc_at sz prev c skip s = (None, s).
Proof.
  intros Hslots. unfold heap_blk_alloc_at. unfold slots_needed in Hslots.
  cbv zeta.
  destruct (Z.eqb_spec skip 0) as [Hs0|Hs0]; cbn [negb andb fst snd] in *.
  - rewrite Hs0 in *.
    destruct (Z.eqb_spec (wrap (0 + sz)) (size (blk s c))) as [Hw|Hw];
      cbn [negb andb fst snd] in *; [lia|].
    destruct (heap_blk_new s) as [[u|] s1] eqn:Hnew; cbn [fst snd].
    + apply heap_blk_new_free_slots in Hnew. lia.
    + rewrite bool_decide_eq_true_2 by done.
      by apply heap_blk_new_None in Hnew as [-> _].
  - destruct (heap_blk_new s) as [[k|] s1] eqn:Hnew; cbn [fst snd].
    2: { rewrite bool_decide_eq_true_2 by done. cbn [negb andb].
         by apply heap_blk_new_None in Hnew as [-> _]. }
    rewrite bool_decide_eq_false_2 by done. cbn [negb andb].
    rewrite (heap_blk_new_size _ _ _ c Hnew).
    pose proof (heap_blk_new_free_slots _ _ _ Hnew) as Hfs.
    destruct (Z.eqb_spec (wrap (skip + sz)) (size (blk s c))) as [Hw|Hw];
      cbn [negb andb fst snd] in *; [lia|].
    destruct (heap_blk_new s1) as [[u|] s2] eqn:Hnew2; cbn [fst snd].
    + apply heap_blk_new_free_slots in Hnew2. lia.
    + rewrite bool_decide_eq_true_2 by done.
      apply heap_blk_new_None in Hnew2 as [-> _].
      by rewrite (heap_blk_release_new _ _ _ Hnew).
Qed.

(** C1: when the scan of [heap_blk_alloc] finds a fitting free block [c]
    (the first block of the free list that passes the test of line 100)
    but the pool cannot supply the descriptors its split needs (the
    leading skip block, the trailing remainder block, or both), the call
    returns [NULL] and the whole allocator state, the lists, the counter
    and every slot of the pool, is exactly the state before the call.
    This holds in every state, reachable or not. *)
Theorem C1_failed_split_keeps_state s ty sz alignment k c :
  list_find (λ i, alloc_fits ty sz alignment (blk s i) = true)
    (free_blocks s) = Some (k, c) →
  (free_slots s
   < slots_needed sz (alloc_skip alignment (blk s c)) (blk s c))%nat →
  heap_blk_alloc ty sz alignment s = Some (None, s).
Proof.
  intros Hfind Hslots. unfold heap_blk_alloc.
  destruct (heap_blk_alloc_scan_first_fit s ty sz alignment _ None _ _ _
              Hfind) as [prev' ->].
  by rewrite heap_blk_alloc_at_fails.
Qed.

(** The block at 4097 needs 7 bytes of padding for a request of 9 bytes
    and is larger than 16 bytes: two descriptors, with one at hand. *)
Lemma C1_failed_split_keeps_state_witness :
  heap_blk_alloc TM_TYPE_VRAM 9 TM_ALIGNMENT one_slot_left
  = Some (None, one_slot_left).
Proof.
  apply (C1_failed_split_keeps_state one_slot_left TM_TYPE_VRAM 9
           TM_ALIGNMENT 0 0).
  - vm_compute. reflexivity.
  - vm_compute. lia.
Defined.

(** C4: every non-null address that [texmem_alloc] returns is a multiple
    of [TM_ALIGNMENT]: it is the base of a block [c] of the free list
    rounded up to the alignment, i.e. that base shifted by exactly the
    padding [skip] that line 99 computes, and it is the base the block
    has afterwards. *)
Theorem C4_address_aligned s sz addr s' :
  reachable s → u32 sz → texmem_alloc sz s = Some (addr, s') → addr ≠ 0 →
  addr mod TM_ALIGNMENT = 0
  ∧ ∃ c, c ∈ free_blocks s
         ∧ addr = ALIGN (base (blk s c)) TM_ALIGNMENT
         ∧ addr = wrap (base (blk s c) + alloc_skip TM_ALIGNMENT (blk s c))
         ∧ base (blk s' c) = addr.
Proof.
  intros Hr Hsz Halloc Hnz. pose proof (reachable_shape s Hr) as Hsh.
  destruct (decide (sz = 0)) as [->|Hsz0].
  { by injection Halloc as <- <-. }
  destruct (texmem_alloc_spec s _ _ sz Hsh Hsz Hsz0)
    as [[_ Heq]|(l1 & c & l2 & Hfl & _ & _ &
                 [[_ Heq]|(_ & s1 & ks & us & Heq & Hpost)])];
    rewrite Heq in Halloc; injection Halloc as <- <-; [done..|].
  destruct Hpost as (_ & _ & Ec & _).
  apply payload_fields in Ec as (_ & Ecb & _). cbn [base] in Ecb.
  rewrite Ecb, base_plus_skip. split.
  - apply ALIGN_multiple; [done|]. by exists (2 ^ 29).
  - exists c.
    split_and!; [|done|by rewrite base_plus_skip
                |by rewrite Ecb, base_plus_skip].
    rewrite Hfl. set_solver.
Qed.

Lemma C4_address_aligned_witness :
  ∃ s', texmem_alloc 50 after_alloc_100 = Some (4200, s')
        ∧ 4200 mod TM_ALIGNMENT = 0.
Proof.
  eexists. split; [vm_compute; reflexivity|].
  eapply (C4_address_aligned after_alloc_100 50 4200).
  - apply after_alloc_100_reachable.
  - unfold u32. lia.
  - vm_compute. reflexivity.
  - lia.
Defined.

(** C5, as stated, fails: a request of 9 bytes in the fresh 1024-byte
    region adds 9 to the counter, not 16. *)
Lemma C5_counterexample : ¬ used_grows_by_rounded_size region_1k 9.
Proof.
  intros H.
  specialize (H 4096 (run_from region_1k [Alloc 9])).
  vm_compute in H. specialize (H eq_refl).
  assert (9 = 16) as Habs by (apply H; lia). discriminate Habs.
Qed.

(** C5, amended: for a non-zero size [sz], [texmem_alloc] raises the size
    to at least [TM_ALIGNMENT] (sizes of 8 and more are passed on as they
    are); the block allocated, which heads the allocated list and whose
    base is the address returned, has that size, and the usage counter
    grows by it (in 32-bit arithmetic). *)
Theorem C5_size_clamped s sz addr s' :
  reachable s → u32 sz → sz ≠ 0 →
  texmem_alloc sz s = Some (addr, s') → addr ≠ 0 →
  ∃ c, tm_alloclist s' = Some c
       ∧ base (blk s' c) = addr
       ∧ size (blk s' c) = Z.max sz TM_ALIGNMENT
       ∧ tm_used s' = wrap (tm_used s + Z.max sz TM_ALIGNMENT).
Proof.
  intros Hr Hsz Hsz0 Halloc Hnz. pose proof (reachable_shape s Hr) as Hsh.
  destruct (texmem_alloc_spec s _ _ sz Hsh Hsz Hsz0)
    as [[_ Heq]|(l1 & c & l2 & Hfl & _ & _ &
                 [[_ Heq]|(_ & s1 & ks & us & Heq & Hpost)])];
    rewrite Heq in Halloc; injection Halloc as <- <-; [done..|].
  destruct Hpost as (_ & _ & Ec & _ & _ & _ & Hused & Hhead & _).
  apply payload_fields in Ec as (_ & _ & _ & Ecs). cbn [size] in Ecs.
  by exists c.
Qed.

Lemma C5_size_clamped_witness :
  ∃ c, tm_alloclist (run_from region_1k [Alloc 9]) = Some c
       ∧ base (blk (run_from region_1k [Alloc 9]) c) = 4096
       ∧ size (blk (run_from region_1k [Alloc 9]) c) = Z.max 9 TM_ALIGNMENT
       ∧ tm_used (run_from region_1k [Alloc 9])
         = wrap (tm_used region_1k + Z.max 9 TM_ALIGNMENT).
Proof.
  apply (C5_size_clamped region_1k 9 4096).
  - apply region_1k_reachable.
  - unfold u32. lia.
  - lia.
  - vm_compute. reflexivity.
  - lia.
Defined.

(** C6, as stated, fails: with a failed mapping [texmem_init] does not
    return a failure indication to its caller (it does not return at
    all). *)
Lemma C6_counterexample :
  ¬ ∃ v s,
      texmem_init SCE_KERNEL_MEMBLOCK_TYPE_USER_CDRAM_RW 1024 (0, 0)
        tm_static
      = InitReturn (Some v) s.
Proof. intros (v & s & H). vm_compute in H. discriminate. Qed.

(** C6, amended: when the region reservation cannot be satisfied (the
    mapping yields a null base) [texmem_init] does not proceed to set up
    the heap: it stops at the assertion on the mapped base. *)
Theorem C6_failed_mapping_aborts maintype mainsize uid s0 :
  texmem_init maintype mainsize (0, uid) s0 = InitAbort.
Proof. done. Qed.

(** C9: [texmem_free] with a null address, or with an address that is the
    base of no block on the allocated list, returns and leaves the whole
    state (both lists, the pool, the usage counter) as it was. *)
Theorem C9_free_unknown_is_noop s ptr :
  reachable s →
  ptr = 0 ∨ Forall (λ i, base (blk s i) ≠ ptr) (alloc_blocks s) →
  texmem_free ptr s = Some s.
Proof.
  intros Hr Hptr. unfold texmem_free, heap_free.
  destruct (Z.eqb_spec ptr 0) as [_|Hnz]; [done|].
  destruct Hptr as [->|Hall]; [done|].
  pose proof (reachable_shape s Hr) as Hsh.
  destruct (heap_blk_free_spec s _ _ ptr Hsh)
    as [[_ Heq]|(a1 & c & a2 & s1 & fl' & Hal & _ & Hbc & _)]; [done|].
  rewrite Hal in Hall. apply Forall_app in Hall as [_ Hall].
  apply Forall_cons in Hall as [Hc _]. done.
Qed.

(** A second free of an address just freed is such a call. *)
Lemma C9_free_unknown_is_noop_witness :
  texmem_free 4096 (run_from region_1k [Alloc 100; Free 4096])
  = Some (run_from region_1k [Alloc 100; Free 4096]).
Proof.
  apply C9_free_unknown_is_noop.
  - apply run_from_reachable; [apply region_1k_reachable|done|].
    vm_compute. eauto.
  - right. vm_compute. constructor.
Defined.

(** C8: the defect.  In the state after one allocation of 100 bytes the
    only free block, slot 1, holds 924 bytes at the unaligned base 4196,
    so 4 bytes of padding are needed.  A request for 4294967292 bytes
    needs 4294967296 bytes from it, yet [heap_blk_alloc] takes the block:
    the sum at line 100 is computed in [uint32_t] and wraps to 0. *)
Theorem C8_overflow_takes_small_block :
  reachable after_alloc_100
  ∧ free_blocks after_alloc_100 = [1%nat]
  ∧ size (blk after_alloc_100 1) = 924
  ∧ alloc_skip TM_ALIGNMENT (blk after_alloc_100 1) = 4
  ∧ ¬ (4294967292 + 4 ≤ size (blk after_alloc_100 1))
  ∧ heap_blk_alloc (tm_main_type after_alloc_100) 4294967292 TM_ALIGNMENT
      after_alloc_100
    = Some (Some 1%nat, after_overflow).
Proof.
  split; [apply after_alloc_100_reachable|].
  split_and!; try (vm_compute; reflexivity). vm_compute. by intros H.
Qed.

(** C10: after the overflowing allocation the two blocks of the free list
    (slots 2 and 3) both start at 4196, and the block handed out (slot 1)
    claims 4294967292 bytes from 4200: the ranges overlap.  A further
    request of 8 bytes is then answered with 4200 again, while the first
    allocation at 4200 is still live. *)
Theorem C10_overflow_blocks_overlap :
  reachable after_overflow
  ∧ ¬ all_disjoint after_overflow
  ∧ 1%nat ∈ alloc_blocks after_overflow
  ∧ base (blk after_overflow 1) = 4200
  ∧ fst <$> texmem_alloc 8 after_overflow = Some 4200.
Proof.
  split; [apply after_overflow_reachable|].
  split_and!; try (vm_compute; reflexivity).
  - intros H. specialize (H 2%nat 3%nat).
    vm_compute in H.
    destruct H as [H|H]; [set_solver..|lia|by apply H|by apply H].
  - vm_compute. set_solver.
Qed.

(** C7: after the overflowing allocation the free list holds two blocks
    with the same base 4196, so it is not in strictly ascending order. *)
Theorem C7_overflow_free_list_unsorted :
  reachable after_overflow
  ∧ free_bases after_overflow = [4196; 4196]
  ∧ ¬ strictly_ascending (free_bases after_overflow).
Proof.
  split; [apply after_overflow_reachable|].
  assert (Hb: free_bases after_overflow = [4196; 4196])
    by (vm_compute; reflexivity).
  split; [done|]. rewrite Hb. cbn [strictly_ascending]. lia.
Qed.

(** C3: after the overflowing allocation the allocated list holds blocks
    of 4294967292 and 100 bytes, 4294967392 in all, while the counter,
    which wrapped around, reads 96. *)
Theorem C3_overflow_counter_differs :
  reachable after_overflow
  ∧ texmem_memused after_overflow = 96
  ∧ alloc_sizes_sum after_overflow = 4294967392.
Proof.
  split; [apply after_overflow_reachable|].
  split; vm_compute; reflexivity.
Qed.

(** C2: when both allocations of the overflow scenario have been freed,
    the allocated list is empty but the free list holds three blocks,
    (4096, 104), (4196, 924) and (4200, 4294967292), instead of the one
    block (4096, 1024). *)
Theorem C2_overflow_not_coalesced :
  reachable after_overflow_freed
  ∧ alloc_blocks after_overflow_freed = []
  ∧ (λ i, (base (blk after_overflow_freed i),
           size (blk after_overflow_freed i)))
      <$> free_blocks after_overflow_freed
    = [(4096, 104); (4196, 924); (4200, 4294967292)].
Proof.
  split; [apply after_overflow_freed_reachable|].
  split; vm_compute; reflexivity.
Qed.
End claims.
